(** * Obligation health report: [formatObligation]

    A shallow embedding of [formatObligation], the function of the lending SDK
    that turns a decoded obligation and the reserves of its pool into a health
    report, and of the part of bignumber.js it calls; then the properties of
    the report that the specification states.

    Conventions of the embedding.
    - A [BigNumber] is NaN, a signed infinity or a finite value.  Finite values
      are carried by rationals; bignumber.js decimals are the rationals whose
      denominator is a power of ten, and [plus], [minus], [times] and
      [shiftedBy] are exact on them.  [dividedBy] rounds its quotient to
      [DECIMAL_PLACES] = 20 places with ROUND_HALF_UP, the library defaults.
      Negative zero is identified with zero, and the exponent range of the
      library (1e9) is beyond what the inputs reach and is not represented.
    - A [BN] (bn.js integer) is a [Z]; a [PublicKey] is its base58 string.
    - The callbacks of the two [map] calls update three captured accumulators
      and may throw: they live in a state-and-exception monad [M]. *)

From Stdlib Require Import ZArith QArith Qround Qabs Qpower Lqa Lia List String Bool.
From Stdlib Require Import Permutation Morphisms DecimalString DecimalZ DecimalPos.
Import ListNotations.
Open Scope Q_scope.

(** ** bignumber.js *)

Inductive BigNumber : Type :=
| NaN
| Infinity (negative : bool)
| Fin (q : Q).

Definition DECIMAL_PLACES : Z := 20.

(** One unit in the last kept place is [1 / scale]. *)
Definition scale : positive := (10 ^ 20)%positive.

(** ROUND_HALF_UP at [DECIMAL_PLACES]: nearest multiple of [1/scale], ties away
    from zero. *)
Definition round_half_up (q : Q) : Q :=
  let n := Qnum q in
  let d := Z.pos (Qden q) in
  (Z.sgn n * ((2 * Z.abs n * Z.pos scale + d) / (2 * d)))%Z # scale.

Definition Qneg (q : Q) : bool := (Qnum q <? 0)%Z.
Definition Qzero (q : Q) : bool := (Qnum q =? 0)%Z.

(** [new BigNumber(bn.toString())] *)
Definition ofBN (n : Z) : BigNumber := Fin (inject_Z n).

(** [new BigNumber(v)] for an optional field: [undefined] is not a number. *)
Definition ofOptional (v : option BigNumber) : BigNumber :=
  match v with
  | Some x => x
  | None => NaN
  end.

Definition isZero (x : BigNumber) : bool :=
  match x with
  | Fin q => Qzero q
  | _ => false
  end.

Definition negated (x : BigNumber) : BigNumber :=
  match x with
  | NaN => NaN
  | Infinity s => Infinity (negb s)
  | Fin q => Fin (- q)
  end.

Definition plus (x y : BigNumber) : BigNumber :=
  match x, y with
  | NaN, _ | _, NaN => NaN
  | Infinity s, Infinity t => if Bool.eqb s t then Infinity s else NaN
  | Infinity s, Fin _ => Infinity s
  | Fin _, Infinity t => Infinity t
  | Fin a, Fin b => Fin (a + b)
  end.

Definition minus (x y : BigNumber) : BigNumber := plus x (negated y).

Definition times (x y : BigNumber) : BigNumber :=
  match x, y with
  | NaN, _ | _, NaN => NaN
  | Infinity s, Infinity t => Infinity (xorb s t)
  | Infinity s, Fin b => if Qzero b then NaN else Infinity (xorb s (Qneg b))
  | Fin a, Infinity t => if Qzero a then NaN else Infinity (xorb (Qneg a) t)
  | Fin a, Fin b => Fin (a * b)
  end.

Definition multipliedBy := times.

Definition dividedBy (x y : BigNumber) : BigNumber :=
  match x, y with
  | NaN, _ | _, NaN => NaN
  | Infinity _, Infinity _ => NaN
  | Infinity s, Fin b => Infinity (xorb s (Qneg b))
  | Fin _, Infinity _ => Fin 0
  | Fin a, Fin b =>
      if Qzero b then (if Qzero a then NaN else Infinity (Qneg a))
      else Fin (round_half_up (a / b))
  end.

(** [x.shiftedBy(k)] is [x.times(10^k)], exact. *)
Definition shiftedBy (x : BigNumber) (k : Z) : BigNumber :=
  match x with
  | Fin q => Fin (q * Qpower 10 k)
  | _ => x
  end.

(** [x.isGreaterThanOrEqualTo(y)]; every comparison with NaN is false. *)
Definition isGreaterThanOrEqualTo (x y : BigNumber) : bool :=
  match x, y with
  | NaN, _ | _, NaN => false
  | Infinity s, Infinity t => implb s t
  | Infinity s, Fin _ => negb s
  | Fin _, Infinity t => t
  | Fin a, Fin b => Qle_bool b a
  end.

(** [BigNumber.max(x, y)]: NaN as soon as an argument is NaN. *)
Definition max (x y : BigNumber) : BigNumber :=
  match x, y with
  | NaN, _ | _, NaN => NaN
  | _, _ => if isGreaterThanOrEqualTo x y then x else y
  end.

(** Modelled from the spec: the constant [U64_MAX] of classes/constants, the
    sentinel maximum weight, whose declaration is not part of the sources at
    hand; it is the decimal string of 2^64 - 1. *)
Definition U64_MAX : BigNumber := Fin (inject_Z 18446744073709551615).

(** ** Input structures *)

Definition PublicKey := string.
Definition toBase58 (k : PublicKey) : string := k.
Definition BN := Z.
Bind Scope Z_scope with BN.

Module Reserve.
(** Modelled from the spec: the element type of [PoolType.reserves], declared
    outside the sources at hand.  [emaPrice], [minPrice] and [borrowWeight]
    may be unset; [decimals] is the mint's decimals. *)
Record t : Type := mk {
  address : string;
  symbol : string;
  decimals : Z;
  price : BigNumber;
  emaPrice : option BigNumber;
  minPrice : option BigNumber;
  cTokenExchangeRate : BigNumber;
  cumulativeBorrowRate : BigNumber;
  loanToValueRatio : BigNumber;
  liquidationThreshold : BigNumber;
  borrowWeight : option BigNumber
}.
End Reserve.

(** Modelled from the spec: [PoolType] is declared outside the sources at hand;
    only its list of reserves is read. *)
Record PoolType : Type := mkPool {
  reserves : list Reserve.t
}.

(** Modelled from the spec: the decoded obligation of the state module, which
    is outside the sources at hand; the fields kept are the ones that
    [formatObligation] reads. *)
Record ObligationCollateral : Type := mkCollateral {
  depositReserve : PublicKey;
  depositedAmount : BN
}.

Record ObligationLiquidity : Type := mkLiquidity {
  borrowReserve : PublicKey;
  cumulativeBorrowRateWads : BN;
  borrowedAmountWads : BN
}.

Record Obligation : Type := mkObligation {
  lendingMarket : PublicKey;
  deposits : list ObligationCollateral;
  borrows : list ObligationLiquidity
}.

Record ObligationAccount : Type := mkAccount {
  pubkey : PublicKey;
  info : Obligation
}.

(** ** Output structures *)

Module Deposit.
Record t : Type := mk {
  liquidationThreshold : BigNumber;
  loanToValueRatio : BigNumber;
  symbol : string;
  price : BigNumber;
  reserveAddress : string;
  amount : BigNumber;
  amountUsd : BigNumber
}.
End Deposit.

Module Borrow.
Record t : Type := mk {
  liquidationThreshold : BigNumber;
  loanToValueRatio : BigNumber;
  symbol : string;
  price : BigNumber;
  reserveAddress : string;
  amount : BigNumber;
  amountUsd : BigNumber;
  weightedAmountUsd : BigNumber
}.
End Borrow.

(** The three captured accumulators. *)
Record Acc : Type := mkAcc {
  minPriceUserTotalSupply : BigNumber;
  minPriceBorrowLimit : BigNumber;
  maxPriceUserTotalWeightedBorrow : BigNumber
}.

Module Report.
Record t : Type := mk {
  address : string;
  positions : nat;
  deposits : list Deposit.t;
  borrows : list Borrow.t;
  poolAddress : string;
  totalSupplyValue : BigNumber;
  totalBorrowValue : BigNumber;
  borrowLimit : BigNumber;
  liquidationThreshold : BigNumber;
  netAccountValue : BigNumber;
  liquidationThresholdFactor : BigNumber;
  borrowLimitFactor : BigNumber;
  borrowUtilization : BigNumber;
  weightedConservativeBorrowUtilization : BigNumber;
  weightedBorrowUtilization : BigNumber;
  isBorrowLimitReached : bool;
  borrowOverSupply : BigNumber;
  weightedTotalBorrowValue : BigNumber;
  minPriceUserTotalSupply : BigNumber;
  minPriceBorrowLimit : BigNumber;
  maxPriceUserTotalWeightedBorrow : BigNumber
}.
End Report.

(** ** State and exceptions *)

Inductive Result (A : Type) : Type :=
| Ok (a : A)
| Throw (message : string).
Arguments Ok {A} a.
Arguments Throw {A} message.

Definition M (A : Type) : Type := Acc -> Result (A * Acc).

Definition ret {A} (a : A) : M A := fun s => Ok (a, s).
Definition throw {A} (message : string) : M A := fun _ => Throw message.
Definition bind {A B} (m : M A) (k : A -> M B) : M B :=
  fun s => match m s with
           | Ok (a, s') => k a s'
           | Throw e => Throw e
           end.
Definition get : M Acc := fun s => Ok (s, s).
Definition put (s : Acc) : M unit := fun _ => Ok (tt, s).

Notation "x <- m ;; k" := (bind m (fun x => k))
  (at level 61, m at next level, right associativity).
Notation "m ;;; k" := (bind m (fun _ => k))
  (at level 61, right associativity).

(** [xs.map(f)] with an effectful callback, left to right. *)
Fixpoint mapM {A B} (f : A -> M B) (xs : list A) : M (list B) :=
  match xs with
  | [] => ret []
  | x :: xs' => y <- f x ;; ys <- mapM f xs' ;; ret (y :: ys)
  end.

(** ** formatObligation *)

Definition nonZero (n : BN) : bool := negb (n =? 0)%Z.

Definition findReserve (pool : PoolType) (reserveAddress : string)
  : option Reserve.t :=
  find (fun r => String.eqb (Reserve.address r) reserveAddress) (reserves pool).

(** The callback of [deposits.filter(..).map(..)]. *)
Definition formatDeposit (pool : PoolType) (d : ObligationCollateral)
  : M Deposit.t :=
  let reserveAddress := toBase58 (depositReserve d) in
  match findReserve pool reserveAddress with
  | None => throw "Deposit in obligation does not exist in the pool"
  | Some reserve =>
      let amount :=
        times (shiftedBy (ofBN (depositedAmount d)) (- Reserve.decimals reserve))
              (Reserve.cTokenExchangeRate reserve) in
      let amountUsd := times amount (Reserve.price reserve) in
      s <- get ;;
      put (mkAcc
             (plus (minPriceUserTotalSupply s)
                   (times amount (ofOptional (Reserve.minPrice reserve))))
             (plus (minPriceBorrowLimit s)
                   (times (times amount (ofOptional (Reserve.minPrice reserve)))
                          (Reserve.loanToValueRatio reserve)))
             (maxPriceUserTotalWeightedBorrow s)) ;;;
      ret (Deposit.mk
             (Reserve.liquidationThreshold reserve)
             (Reserve.loanToValueRatio reserve)
             (Reserve.symbol reserve)
             (Reserve.price reserve)
             reserveAddress
             amount
             amountUsd)
  end.

(** The debt of a borrow brought forward to the reserve's current index. *)
Definition accruedAmount (reserve : Reserve.t) (b : ObligationLiquidity)
  : BigNumber :=
  dividedBy
    (times (shiftedBy (ofBN (borrowedAmountWads b))
                      (- 18 - Reserve.decimals reserve))
           (Reserve.cumulativeBorrowRate reserve))
    (shiftedBy (ofBN (cumulativeBorrowRateWads b)) (- 18)).

(** The callback of [borrows.filter(..).map(..)]. *)
Definition formatBorrow (pool : PoolType) (b : ObligationLiquidity)
  : M Borrow.t :=
  let reserveAddress := toBase58 (borrowReserve b) in
  match findReserve pool reserveAddress with
  | None => throw "Borrow in obligation does not exist in the pool"
  | Some reserve =>
      let amount := accruedAmount reserve b in
      let amountUsd := times amount (Reserve.price reserve) in
      let maxPrice :=
        match Reserve.emaPrice reserve with
        | Some ema => max ema (Reserve.price reserve)
        | None => Reserve.price reserve
        end in
      s <- get ;;
      put (mkAcc
             (minPriceUserTotalSupply s)
             (minPriceBorrowLimit s)
             (plus (maxPriceUserTotalWeightedBorrow s)
                   (times (times amount maxPrice)
                          match Reserve.borrowWeight reserve with
                          | Some w => w
                          | None => U64_MAX
                          end))) ;;;
      ret (Borrow.mk
             (Reserve.liquidationThreshold reserve)
             (Reserve.loanToValueRatio reserve)
             (Reserve.symbol reserve)
             (Reserve.price reserve)
             reserveAddress
             amount
             amountUsd
             (multipliedBy (ofOptional (Reserve.borrowWeight reserve)) amountUsd))
  end.

(** [xs.reduce((acc, x) => f acc x, init)] *)
Definition reduce {A B} (f : B -> A -> B) (xs : list A) (init : B) : B :=
  fold_left f xs init.

(** The totals and ratios computed once both lists are built. *)
Definition aggregate (address poolAddress : string) (positions : nat)
    (deposits : list Deposit.t) (borrows : list Borrow.t) (s : Acc)
  : Report.t :=
  let totalSupplyValue :=
    reduce (fun acc d => plus acc (Deposit.amountUsd d)) deposits (Fin 0) in
  let totalBorrowValue :=
    reduce (fun acc b => plus acc (Borrow.amountUsd b)) borrows (Fin 0) in
  let weightedTotalBorrowValue :=
    reduce (fun acc b => plus acc (Borrow.weightedAmountUsd b)) borrows (Fin 0) in
  let borrowLimit :=
    reduce (fun acc d =>
              plus (times (Deposit.amountUsd d) (Deposit.loanToValueRatio d)) acc)
           deposits (Fin 0) in
  let liquidationThreshold :=
    reduce (fun acc d =>
              plus (times (Deposit.amountUsd d) (Deposit.liquidationThreshold d)) acc)
           deposits (Fin 0) in
  let netAccountValue := minus totalSupplyValue totalBorrowValue in
  let liquidationThresholdFactor :=
    if isZero totalSupplyValue then Fin 0
    else dividedBy liquidationThreshold totalSupplyValue in
  let borrowLimitFactor :=
    if isZero totalSupplyValue then Fin 0
    else dividedBy borrowLimit totalSupplyValue in
  let borrowUtilization :=
    if isZero borrowLimit then Fin 0
    else dividedBy totalBorrowValue borrowLimit in
  let weightedBorrowUtilization :=
    if isZero (minPriceBorrowLimit s) then Fin 0
    else dividedBy weightedTotalBorrowValue borrowLimit in
  let isBorrowLimitReached :=
    isGreaterThanOrEqualTo borrowUtilization (Fin 1) in
  let borrowOverSupply :=
    if isZero totalSupplyValue then Fin 0
    else dividedBy totalBorrowValue totalSupplyValue in
  let weightedConservativeBorrowUtilization :=
    if isZero (minPriceBorrowLimit s) then Fin 0
    else dividedBy (maxPriceUserTotalWeightedBorrow s) (minPriceBorrowLimit s) in
  Report.mk
    address
    positions
    deposits
    borrows
    poolAddress
    totalSupplyValue
    totalBorrowValue
    borrowLimit
    liquidationThreshold
    netAccountValue
    liquidationThresholdFactor
    borrowLimitFactor
    borrowUtilization
    weightedConservativeBorrowUtilization
    weightedBorrowUtilization
    isBorrowLimitReached
    borrowOverSupply
    weightedTotalBorrowValue
    (minPriceUserTotalSupply s)
    (minPriceBorrowLimit s)
    (maxPriceUserTotalWeightedBorrow s).

Definition nonZeroDeposits (o : Obligation) : list ObligationCollateral :=
  filter (fun d => nonZero (depositedAmount d)) (deposits o).

Definition nonZeroBorrows (o : Obligation) : list ObligationLiquidity :=
  filter (fun b => nonZero (borrowedAmountWads b)) (borrows o).

Definition acc0 : Acc := mkAcc (Fin 0) (Fin 0) (Fin 0).

Definition formatObligation (obligation : ObligationAccount) (pool : PoolType)
  : Result Report.t :=
  let poolAddress := toBase58 (lendingMarket (info obligation)) in
  let run :=
    ds <- mapM (formatDeposit pool) (nonZeroDeposits (info obligation)) ;;
    bs <- mapM (formatBorrow pool) (nonZeroBorrows (info obligation)) ;;
    s <- get ;;
    let positions :=
      (List.length (filter (fun d => negb (depositedAmount d =? 0)%Z)
                      (deposits (info obligation)))
       + List.length (filter (fun b => negb (borrowedAmountWads b =? 0)%Z)
                        (borrows (info obligation))))%nat in
    ret (aggregate (toBase58 (pubkey obligation)) poolAddress positions ds bs s)
  in
  match run acc0 with
  | Ok (r, _) => Ok r
  | Throw e => Throw e
  end.

(** ** Vocabulary of the statements *)

Definition isFinite (x : BigNumber) : bool :=
  match x with
  | Fin _ => true
  | _ => false
  end.

(** Order of values, for finite numbers only. *)
Definition finite_le (x y : BigNumber) : Prop :=
  match x, y with
  | Fin a, Fin b => a <= b
  | _, _ => False
  end.

Definition nonneg (x : BigNumber) : Prop := finite_le (Fin 0) x.

Definition present (pool : PoolType) (reserveAddress : string) : Prop :=
  In reserveAddress (map Reserve.address (reserves pool)).

Definition depositAmount (reserve : Reserve.t) (d : ObligationCollateral)
  : BigNumber :=
  times (shiftedBy (ofBN (depositedAmount d)) (- Reserve.decimals reserve))
        (Reserve.cTokenExchangeRate reserve).

Definition borrowWeightOrMax (reserve : Reserve.t) : BigNumber :=
  match Reserve.borrowWeight reserve with
  | Some w => w
  | None => U64_MAX
  end.

Definition conservativePrice (reserve : Reserve.t) : BigNumber :=
  match Reserve.emaPrice reserve with
  | Some ema => max ema (Reserve.price reserve)
  | None => Reserve.price reserve
  end.

Definition positionCount (o : Obligation) : nat :=
  (List.length (nonZeroDeposits o) + List.length (nonZeroBorrows o))%nat.

Definition danglingDeposit (ob : ObligationAccount) (pool : PoolType) : Prop :=
  exists d, In d (deposits (info ob)) /\ depositedAmount d <> 0%Z /\
            ~ present pool (toBase58 (depositReserve d)).

Definition danglingBorrow (ob : ObligationAccount) (pool : PoolType) : Prop :=
  exists b, In b (borrows (info ob)) /\ borrowedAmountWads b <> 0%Z /\
            ~ present pool (toBase58 (borrowReserve b)).

(** The obligation with its zero-amount entries removed. *)
Definition stripZero (ob : ObligationAccount) : ObligationAccount :=
  mkAccount (pubkey ob)
    (mkObligation (lendingMarket (info ob))
       (nonZeroDeposits (info ob)) (nonZeroBorrows (info ob))).

(** The report of an obligation that holds nothing. *)
Definition emptyReport (address poolAddress : string) : Report.t :=
  Report.mk address 0 [] [] poolAddress
    (Fin 0) (Fin 0) (Fin 0) (Fin 0) (Fin 0) (Fin 0) (Fin 0) (Fin 0) (Fin 0)
    (Fin 0) false (Fin 0) (Fin 0) (Fin 0) (Fin 0) (Fin 0).

(** The decimal value of the stored debt and of the stored index. *)
Definition rawAmount (reserve : Reserve.t) (b : ObligationLiquidity) : Q :=
  inject_Z (borrowedAmountWads b) * Qpower 10 (- 18 - Reserve.decimals reserve).

Definition snapshotIndex (b : ObligationLiquidity) : Q :=
  inject_Z (cumulativeBorrowRateWads b) * Qpower 10 (- 18).

Definition depositRegular (d : Deposit.t) : Prop :=
  nonneg (Deposit.amountUsd d) /\ nonneg (Deposit.loanToValueRatio d).

(** ** Sample reserves and obligations *)

Open Scope string_scope.

Definition usdc : Reserve.t :=
  Reserve.mk "USDC" "USDC" 6 (Fin 1) None (Some (Fin 1)) (Fin 1) (Fin 1)
    (Fin (8 # 10)) (Fin (85 # 100)) None.

Definition sol : Reserve.t :=
  Reserve.mk "SOL" "SOL" 6 (Fin 2) None (Some (Fin 2)) (Fin 1) (Fin 1)
    (Fin (8 # 10)) (Fin (85 # 100)) (Some (Fin 1)).

Definition pool2 : PoolType := mkPool [sol; usdc].

(** One hundred SOL deposited (the first example of the specification). *)
Definition ob1 : ObligationAccount :=
  mkAccount "owner" (mkObligation "market" [mkCollateral "SOL" 100000000] []).

(** The same deposit and fifty USDC borrowed (the second example). *)
Definition ob2 : ObligationAccount :=
  mkAccount "owner"
    (mkObligation "market" [mkCollateral "SOL" 100000000]
       [mkLiquidity "USDC" 1000000000000000000 50000000000000000000000000]).

(** The reserve of [sol] when its conservative price is zero. *)
Definition solFloorZero : Reserve.t :=
  Reserve.mk "SOL" "SOL" 6 (Fin 2) None (Some (Fin 0)) (Fin 1) (Fin 1)
    (Fin (8 # 10)) (Fin (85 # 100)) (Some (Fin 1)).

(** The reserve of [sol] when its spot price is zero. *)
Definition solSpotZero : Reserve.t :=
  Reserve.mk "SOL" "SOL" 6 (Fin 0) None (Some (Fin 2)) (Fin 1) (Fin 1)
    (Fin (8 # 10)) (Fin (85 # 100)) (Some (Fin 1)).

(** The reserve of [sol] when it is worth nothing. *)
Definition solWorthless : Reserve.t :=
  Reserve.mk "SOL" "SOL" 6 (Fin 0) None (Some (Fin 0)) (Fin 1) (Fin 1)
    (Fin (8 # 10)) (Fin (85 # 100)) (Some (Fin 1)).

(** The reserve of [sol] without a conservative price. *)
Definition solNoMinPrice : Reserve.t :=
  Reserve.mk "SOL" "SOL" 6 (Fin 2) None None (Fin 1) (Fin 1)
    (Fin (8 # 10)) (Fin (85 # 100)) (Some (Fin 1)).

(** [usdc] with a borrow weight of one. *)
Definition usdcWeighted : Reserve.t :=
  Reserve.mk "USDC" "USDC" 6 (Fin 1) None (Some (Fin 1)) (Fin 1) (Fin 1)
    (Fin (8 # 10)) (Fin (85 # 100)) (Some (Fin 1)).

(** [usdcWeighted] once its interest index has doubled. *)
Definition usdcDoubled : Reserve.t :=
  Reserve.mk "USDC" "USDC" 6 (Fin 1) None (Some (Fin 1)) (Fin 1) (Fin 2)
    (Fin (8 # 10)) (Fin (85 # 100)) (Some (Fin 1)).

Definition poolFloorZero : PoolType := mkPool [solFloorZero; usdcWeighted].
Definition poolSpotZero : PoolType := mkPool [solSpotZero; usdcWeighted].
Definition poolWorthless : PoolType := mkPool [solWorthless; usdcWeighted].
Definition poolWeighted : PoolType := mkPool [sol; usdcWeighted].
Definition poolNoMinPrice : PoolType := mkPool [solNoMinPrice; usdc].
Definition poolDoubled : PoolType := mkPool [sol; usdcDoubled].

Definition solDeposit : ObligationCollateral := mkCollateral "SOL" 100000000.

(** Fifty USDC borrowed at index one. *)
Definition usdcBorrow : ObligationLiquidity :=
  mkLiquidity "USDC" 1000000000000000000 50000000000000000000000000.

(** Fifty USDC and one unit of the last wad place, borrowed at index one. *)
Definition dustBorrow : ObligationLiquidity :=
  mkLiquidity "USDC" 1000000000000000000 50000000000000000000000001.

(** Fifty USDC whose stored index is zero. *)
Definition zeroIndexBorrow : ObligationLiquidity :=
  mkLiquidity "USDC" 0 50000000000000000000000000.

Definition obDust : ObligationAccount :=
  mkAccount "owner" (mkObligation "market" [solDeposit] [dustBorrow]).

Definition obZeroIndex : ObligationAccount :=
  mkAccount "owner" (mkObligation "market" [solDeposit] [zeroIndexBorrow]).

(** A deposit in a reserve that [pool2] does not list. *)
Definition obDangling : ObligationAccount :=
  mkAccount "owner"
    (mkObligation "market" [solDeposit; mkCollateral "BTC" 1] [usdcBorrow]).

(** Entries that are all empty. *)
Definition obEmptied : ObligationAccount :=
  mkAccount "owner"
    (mkObligation "market" [mkCollateral "SOL" 0; mkCollateral "BTC" 0]
       [mkLiquidity "USDC" 1000000000000000000 0]).

(** Records of the aggregation: a deposit of 100 then 200 dollars, a debt
    of 50. *)
Definition deposit100 : Deposit.t :=
  Deposit.mk (Fin (85 # 100)) (Fin (8 # 10)) "SOL" (Fin 2) "SOL" (Fin 50) (Fin 100).

Definition deposit200 : Deposit.t :=
  Deposit.mk (Fin (85 # 100)) (Fin (8 # 10)) "SOL" (Fin 2) "SOL" (Fin 100) (Fin 200).

Definition borrow50 : Borrow.t :=
  Borrow.mk (Fin (85 # 100)) (Fin (8 # 10)) "USDC" (Fin 1) "USDC" (Fin 50) (Fin 50)
    (Fin 50).

(** ** The callbacks as pure functions of the resolved reserve *)

Definition depositMessage : string :=
  "Deposit in obligation does not exist in the pool".

Definition borrowMessage : string :=
  "Borrow in obligation does not exist in the pool".

Close Scope string_scope.

(** What the deposit callback returns and what it leaves in the accumulators
    once [find] has answered [reserve]. *)
Definition depositRecord (reserve : Reserve.t) (d : ObligationCollateral)
  : Deposit.t :=
  Deposit.mk
    (Reserve.liquidationThreshold reserve)
    (Reserve.loanToValueRatio reserve)
    (Reserve.symbol reserve)
    (Reserve.price reserve)
    (toBase58 (depositReserve d))
    (depositAmount reserve d)
    (times (depositAmount reserve d) (Reserve.price reserve)).

Definition depositStep (reserve : Reserve.t) (d : ObligationCollateral)
    (s : Acc) : Acc :=
  mkAcc
    (plus (minPriceUserTotalSupply s)
          (times (depositAmount reserve d) (ofOptional (Reserve.minPrice reserve))))
    (plus (minPriceBorrowLimit s)
          (times (times (depositAmount reserve d)
                        (ofOptional (Reserve.minPrice reserve)))
                 (Reserve.loanToValueRatio reserve)))
    (maxPriceUserTotalWeightedBorrow s).

Definition borrowRecord (reserve : Reserve.t) (b : ObligationLiquidity)
  : Borrow.t :=
  Borrow.mk
    (Reserve.liquidationThreshold reserve)
    (Reserve.loanToValueRatio reserve)
    (Reserve.symbol reserve)
    (Reserve.price reserve)
    (toBase58 (borrowReserve b))
    (accruedAmount reserve b)
    (times (accruedAmount reserve b) (Reserve.price reserve))
    (multipliedBy (ofOptional (Reserve.borrowWeight reserve))
                  (times (accruedAmount reserve b) (Reserve.price reserve))).

Definition borrowStep (reserve : Reserve.t) (b : ObligationLiquidity)
    (s : Acc) : Acc :=
  mkAcc
    (minPriceUserTotalSupply s)
    (minPriceBorrowLimit s)
    (plus (maxPriceUserTotalWeightedBorrow s)
          (times (times (accruedAmount reserve b) (conservativePrice reserve))
                 (borrowWeightOrMax reserve))).

(** The positions of a list paired with the reserves that [find] answers, when
    it answers for all of them. *)
Fixpoint resolve {A} (pool : PoolType) (key : A -> PublicKey) (xs : list A)
  : option (list (Reserve.t * A)) :=
  match xs with
  | [] => Some []
  | x :: xs' =>
      match findReserve pool (toBase58 (key x)) with
      | None => None
      | Some reserve =>
          match resolve pool key xs' with
          | None => None
          | Some ps => Some ((reserve, x) :: ps)
          end
      end
  end.

Definition depositRecords (ps : list (Reserve.t * ObligationCollateral))
  : list Deposit.t :=
  map (fun p => depositRecord (fst p) (snd p)) ps.

Definition borrowRecords (ps : list (Reserve.t * ObligationLiquidity))
  : list Borrow.t :=
  map (fun p => borrowRecord (fst p) (snd p)) ps.

Definition depositSteps (ps : list (Reserve.t * ObligationCollateral)) (s : Acc)
  : Acc :=
  fold_left (fun s p => depositStep (fst p) (snd p) s) ps s.

Definition borrowSteps (ps : list (Reserve.t * ObligationLiquidity)) (s : Acc)
  : Acc :=
  fold_left (fun s p => borrowStep (fst p) (snd p) s) ps s.

(** ** Well-formed inputs *)

(** Equality of values: the same special value, or equal finite numbers. *)
Definition bn_equiv (x y : BigNumber) : Prop :=
  match x, y with
  | NaN, NaN => True
  | Infinity s, Infinity t => s = t
  | Fin a, Fin b => a == b
  | _, _ => False
  end.

(** An optional field that is set, to a finite non-negative number. *)
Definition setNonneg (v : option BigNumber) : Prop :=
  match v with
  | Some x => nonneg x
  | None => False
  end.

(** An optional field that is unset or a finite non-negative number. *)
Definition unsetOrNonneg (v : option BigNumber) : Prop :=
  match v with
  | Some x => nonneg x
  | None => True
  end.

(** What the deposit callback needs of a reserve to stay within finite
    non-negative numbers, and what the borrow callback needs. *)
Definition regularDepositReserve (r : Reserve.t) : Prop :=
  nonneg (Reserve.price r) /\
  nonneg (Reserve.cTokenExchangeRate r) /\
  nonneg (Reserve.loanToValueRatio r) /\
  nonneg (Reserve.liquidationThreshold r) /\
  setNonneg (Reserve.minPrice r).

Definition regularBorrowReserve (r : Reserve.t) : Prop :=
  nonneg (Reserve.price r) /\
  nonneg (Reserve.cumulativeBorrowRate r) /\
  unsetOrNonneg (Reserve.emaPrice r) /\
  setNonneg (Reserve.borrowWeight r).

Definition regularDepositPair (p : Reserve.t * ObligationCollateral) : Prop :=
  (0 <= depositedAmount (snd p))%Z /\ regularDepositReserve (fst p).

Definition regularBorrowPair (p : Reserve.t * ObligationLiquidity) : Prop :=
  (0 <= borrowedAmountWads (snd p))%Z /\
  (0 < cumulativeBorrowRateWads (snd p))%Z /\
  regularBorrowReserve (fst p).

(** Non-zero positions are positive amounts on resolved reserves with finite
    non-negative parameters, and stored indices are positive. *)
Definition regular (ob : ObligationAccount) (pool : PoolType) : Prop :=
  (forall d, In d (deposits (info ob)) -> depositedAmount d <> 0%Z ->
     exists reserve,
       findReserve pool (toBase58 (depositReserve d)) = Some reserve /\
       regularDepositPair (reserve, d)) /\
  (forall b, In b (borrows (info ob)) -> borrowedAmountWads b <> 0%Z ->
     exists reserve,
       findReserve pool (toBase58 (borrowReserve b)) = Some reserve /\
       regularBorrowPair (reserve, b)).

Definition depositRecordNonneg (d : Deposit.t) : Prop :=
  nonneg (Deposit.amount d) /\ nonneg (Deposit.amountUsd d) /\
  nonneg (Deposit.loanToValueRatio d) /\ nonneg (Deposit.liquidationThreshold d).

Definition borrowRecordNonneg (b : Borrow.t) : Prop :=
  nonneg (Borrow.amount b) /\ nonneg (Borrow.amountUsd b) /\
  nonneg (Borrow.weightedAmountUsd b).

(** A report within finite non-negative numbers; [netAccountValue] may be
    negative, and [weightedBorrowUtilization] is covered where its division
    has a non-zero divisor or is skipped. *)
Definition reportNonneg (r : Report.t) : Prop :=
  Forall depositRecordNonneg (Report.deposits r) /\
  Forall borrowRecordNonneg (Report.borrows r) /\
  nonneg (Report.totalSupplyValue r) /\
  nonneg (Report.totalBorrowValue r) /\
  nonneg (Report.borrowLimit r) /\
  nonneg (Report.liquidationThreshold r) /\
  isFinite (Report.netAccountValue r) = true /\
  nonneg (Report.liquidationThresholdFactor r) /\
  nonneg (Report.borrowLimitFactor r) /\
  nonneg (Report.borrowUtilization r) /\
  nonneg (Report.weightedConservativeBorrowUtilization r) /\
  nonneg (Report.borrowOverSupply r) /\
  nonneg (Report.weightedTotalBorrowValue r) /\
  nonneg (Report.minPriceUserTotalSupply r) /\
  nonneg (Report.minPriceBorrowLimit r) /\
  nonneg (Report.maxPriceUserTotalWeightedBorrow r) /\
  (isZero (Report.minPriceBorrowLimit r) = true \/
   isZero (Report.borrowLimit r) = false ->
   nonneg (Report.weightedBorrowUtilization r)).

(** Conditions on the reserves that non-zero positions resolve to. *)
Definition onDepositReserves (ob : ObligationAccount) (pool : PoolType)
    (P : Reserve.t -> Prop) : Prop :=
  forall d reserve,
    In d (deposits (info ob)) -> depositedAmount d <> 0%Z ->
    findReserve pool (toBase58 (depositReserve d)) = Some reserve -> P reserve.

Definition onBorrowReserves (ob : ObligationAccount) (pool : PoolType)
    (P : Reserve.t -> Prop) : Prop :=
  forall b reserve,
    In b (borrows (info ob)) -> borrowedAmountWads b <> 0%Z ->
    findReserve pool (toBase58 (borrowReserve b)) = Some reserve -> P reserve.

Definition weightAtLeastOne (r : Reserve.t) : Prop :=
  finite_le (Fin 1) (ofOptional (Reserve.borrowWeight r)).

Definition minPriceAtMostPrice (r : Reserve.t) : Prop :=
  finite_le (ofOptional (Reserve.minPrice r)) (Reserve.price r).

Definition ratiosOrdered (r : Reserve.t) : Prop :=
  finite_le (Reserve.loanToValueRatio r) (Reserve.liquidationThreshold r) /\
  finite_le (Reserve.liquidationThreshold r) (Fin 1).

(** Accumulators and reports that carry the same values, the lists of a
    report up to order. *)
Definition accEquiv (s s' : Acc) : Prop :=
  bn_equiv (minPriceUserTotalSupply s) (minPriceUserTotalSupply s') /\
  bn_equiv (minPriceBorrowLimit s) (minPriceBorrowLimit s') /\
  bn_equiv (maxPriceUserTotalWeightedBorrow s)
           (maxPriceUserTotalWeightedBorrow s').

Definition reportEquiv (r r' : Report.t) : Prop :=
  Report.address r = Report.address r' /\
  Report.poolAddress r = Report.poolAddress r' /\
  Report.positions r = Report.positions r' /\
  Permutation (Report.deposits r) (Report.deposits r') /\
  Permutation (Report.borrows r) (Report.borrows r') /\
  bn_equiv (Report.totalSupplyValue r) (Report.totalSupplyValue r') /\
  bn_equiv (Report.totalBorrowValue r) (Report.totalBorrowValue r') /\
  bn_equiv (Report.borrowLimit r) (Report.borrowLimit r') /\
  bn_equiv (Report.liquidationThreshold r) (Report.liquidationThreshold r') /\
  bn_equiv (Report.netAccountValue r) (Report.netAccountValue r') /\
  bn_equiv (Report.liquidationThresholdFactor r)
           (Report.liquidationThresholdFactor r') /\
  bn_equiv (Report.borrowLimitFactor r) (Report.borrowLimitFactor r') /\
  bn_equiv (Report.borrowUtilization r) (Report.borrowUtilization r') /\
  bn_equiv (Report.weightedConservativeBorrowUtilization r)
           (Report.weightedConservativeBorrowUtilization r') /\
  bn_equiv (Report.weightedBorrowUtilization r)
           (Report.weightedBorrowUtilization r') /\
  Report.isBorrowLimitReached r = Report.isBorrowLimitReached r' /\
  bn_equiv (Report.borrowOverSupply r) (Report.borrowOverSupply r') /\
  bn_equiv (Report.weightedTotalBorrowValue r)
           (Report.weightedTotalBorrowValue r') /\
  bn_equiv (Report.minPriceUserTotalSupply r)
           (Report.minPriceUserTotalSupply r') /\
  bn_equiv (Report.minPriceBorrowLimit r) (Report.minPriceBorrowLimit r') /\
  bn_equiv (Report.maxPriceUserTotalWeightedBorrow r)
           (Report.maxPriceUserTotalWeightedBorrow r').

(** ** The amount of a transaction (TransactionTab) *)

(** [x.isEqualTo(y)]; NaN equals nothing. *)
Definition isEqualTo (x y : BigNumber) : bool :=
  match x, y with
  | Fin a, Fin b => Qeq_bool a b
  | Infinity s, Infinity t => Bool.eqb s t
  | _, _ => false
  end.

(** The decimal numeral of an integer, and its reading. *)
Definition string_of_Z (z : Z) : string :=
  DecimalString.NilZero.string_of_int (Z.to_int z).

Definition Z_of_string (s : string) : option Z :=
  option_map Z.of_int (DecimalString.NilZero.int_of_string s).

Open Scope string_scope.

(** [x.toFixed(0, BigNumber.ROUND_FLOOR)]: the integer below, in normal
    notation. *)
Definition toFixed_0_ROUND_FLOOR (x : BigNumber) : string :=
  match x with
  | NaN => "NaN"
  | Infinity false => "Infinity"
  | Infinity true => "-Infinity"
  | Fin q => string_of_Z (Qfloor q)
  end.

(** Modelled from the spec: [U64_MAX] of classes/constants as the text it is
    when it is handed over as an amount. *)
Definition U64_MAX_text : string := "18446744073709551615".

Module SelectedReserve.
(** Modelled from the spec: [SelectedReserveType] of the pools store, declared
    outside the sources at hand; [decimals] is the one field read here. *)
Record t : Type := mk {
  decimals : Z
}.
End SelectedReserve.

(** [makeTransaction]: the amount handed to [onSubmit], if anything is
    submitted.  [newValue] is the number that [new BigNumber(newValue)] reads
    from the typed text; an empty public key counts as none. *)
Definition makeTransaction (publicKey : option string)
    (selectedReserve : option SelectedReserve.t) (maxValue : BigNumber)
    (newValue : BigNumber) : option string :=
  match publicKey, selectedReserve with
  | Some key, Some reserve =>
      if String.eqb key "" then None
      else
        let useMax := isEqualTo newValue maxValue in
        Some (if useMax then U64_MAX_text
              else toFixed_0_ROUND_FLOOR
                     (shiftedBy newValue (SelectedReserve.decimals reserve)))
  | _, _ => None
  end.

Close Scope string_scope.

(** ** Further sample inputs *)

Open Scope string_scope.

(** [pool2] with a reserve appended under an address already listed. *)
Definition poolShadowed : PoolType := mkPool [sol; usdc; solWorthless].

(** Ten USDC deposited. *)
Definition usdcDeposit : ObligationCollateral := mkCollateral "USDC" 10000000.

(** Two deposits and a borrow, and the same with the deposits swapped. *)
Definition obTwo : ObligationAccount :=
  mkAccount "owner"
    (mkObligation "market" [solDeposit; usdcDeposit] [usdcBorrow]).

Definition obTwoSwapped : ObligationAccount :=
  mkAccount "owner"
    (mkObligation "market" [usdcDeposit; solDeposit] [usdcBorrow]).

Definition borrow60 : Borrow.t :=
  Borrow.mk (Fin (85 # 100)) (Fin (8 # 10)) "USDC" (Fin 1) "USDC" (Fin 60) (Fin 60)
    (Fin 60).

Definition usdcSelected : SelectedReserve.t := SelectedReserve.mk 6.

Close Scope string_scope.

Open Scope string_scope.

(** * Properties *)


Close Scope string_scope.

(** ** Rounding *)

Section Rounding.

Local Open Scope Z_scope.

Lemma round_half_up_opp (q : Q) :
  round_half_up (- q) = Qopp (round_half_up q).
Proof.
  destruct q as [n d]. unfold round_half_up, Qopp. cbn [Qnum Qden].
  f_equal. rewrite Z.sgn_opp, Z.abs_opp. ring.
Qed.

(** The integer kept by the rounding of a non-negative [n/d]. *)
Lemma half_up_bounds (n : Z) (d : positive) (T : Z) :
  0 <= n -> 0 < T ->
  let m := (2 * n * T + Z.pos d) / (2 * Z.pos d) in
  2 * Z.pos d * m <= 2 * n * T + Z.pos d < 2 * Z.pos d * m + 2 * Z.pos d.
Proof.
  intros Hn HT m.
  assert (Hd : 0 < 2 * Z.pos d) by lia.
  pose proof (Z.mul_div_le (2 * n * T + Z.pos d) _ Hd).
  pose proof (Z.mul_succ_div_gt (2 * n * T + Z.pos d) _ Hd).
  fold m in H, H0. lia.
Qed.

Lemma round_half_up_nonneg_num (q : Q) :
  0 <= Qnum q ->
  round_half_up q =
  ((2 * Qnum q * Z.pos scale + Z.pos (Qden q)) / (2 * Z.pos (Qden q))) # scale.
Proof.
  intros Hn. unfold round_half_up. f_equal.
  destruct (Z.eq_dec (Qnum q) 0) as [E | E].
  - rewrite E. cbn [Z.sgn Z.abs]. rewrite Z.mul_0_l.
    symmetry. apply Z.div_small. lia.
  - rewrite Z.sgn_pos, Z.abs_eq by lia. lia.
Qed.

End Rounding.

Lemma round_half_up_error_nonneg (q : Q) :
  0 <= q -> Qabs (round_half_up q - q) <= 1 # (2 * scale).
Proof.
  intros Hq. destruct q as [n d].
  assert (Hn : (0 <= n)%Z) by (unfold Qle in Hq; cbn in Hq; lia).
  rewrite round_half_up_nonneg_num by exact Hn. cbn [Qnum Qden].
  pose proof (half_up_bounds n d (Z.pos scale) Hn eq_refl) as B. cbv zeta in B.
  set (m := ((2 * n * Z.pos scale + Z.pos d) / (2 * Z.pos d))%Z) in *.
  apply Qabs_Qle_condition. split.
  - unfold Qle, Qminus, Qplus, Qopp. cbn [Qnum Qden].
    rewrite !Pos2Z.inj_mul. nia.
  - unfold Qle, Qminus, Qplus, Qopp. cbn [Qnum Qden].
    rewrite !Pos2Z.inj_mul. nia.
Qed.

(** [dividedBy] keeps its result within half a unit of the twentieth place. *)
Lemma round_half_up_error (q : Q) :
  Qabs (round_half_up q - q) <= 1 # (2 * scale).
Proof.
  destruct (Qlt_le_dec q 0) as [Hneg | Hpos].
  - assert (H : 0 <= - q) by lra.
    pose proof (round_half_up_error_nonneg _ H) as E.
    rewrite round_half_up_opp in E.
    rewrite <- Qabs_opp.
    assert (X : - (round_half_up q - q) == - round_half_up q - - q) by ring.
    rewrite X. exact E.
  - apply round_half_up_error_nonneg, Hpos.
Qed.

Lemma round_half_up_exact_nonneg (q : Q) (k : Z) :
  0 <= q -> q == k # scale -> round_half_up q == q.
Proof.
  intros Hq E. destruct q as [n d].
  assert (Hn : (0 <= n)%Z) by (unfold Qle in Hq; cbn in Hq; lia).
  rewrite round_half_up_nonneg_num by exact Hn. cbn [Qnum Qden].
  rewrite E. unfold Qeq in *. cbn [Qnum Qden] in *.
  assert (Hk : ((2 * n * Z.pos scale + Z.pos d) / (2 * Z.pos d) = k)%Z).
  { replace (2 * n * Z.pos scale + Z.pos d)%Z
      with (k * (2 * Z.pos d) + Z.pos d)%Z by lia.
    rewrite Z.div_add_l by lia.
    rewrite (Z.div_small (Z.pos d)) by lia. lia. }
  rewrite Hk. reflexivity.
Qed.

(** A value that already has at most twenty decimals is left unchanged. *)
Lemma round_half_up_exact (q : Q) (k : Z) :
  q == k # scale -> round_half_up q == q.
Proof.
  intros E. destruct (Qlt_le_dec q 0) as [Hneg | Hpos].
  - assert (H : 0 <= - q) by lra.
    assert (E' : - q == (- k) # scale).
    { rewrite E. unfold Qeq, Qopp. cbn [Qnum Qden]. reflexivity. }
    pose proof (round_half_up_exact_nonneg _ _ H E') as R.
    rewrite round_half_up_opp in R. lra.
  - exact (round_half_up_exact_nonneg _ _ Hpos E).
Qed.

(** Rounding is monotone on non-negative values. *)
Lemma round_half_up_mono (p q : Q) :
  0 <= p -> p <= q -> round_half_up p <= round_half_up q.
Proof.
  intros Hp Hpq. destruct p as [n d], q as [n' d'].
  assert (Hn : (0 <= n)%Z) by (unfold Qle in Hp; cbn in Hp; lia).
  assert (Hle : (n * Z.pos d' <= n' * Z.pos d)%Z) by exact Hpq.
  assert (Hn' : (0 <= n')%Z) by nia.
  rewrite !round_half_up_nonneg_num by assumption. cbn [Qnum Qden].
  unfold Qle. cbn [Qnum Qden]. apply Z.mul_le_mono_nonneg_r; [lia |].
  pose proof (half_up_bounds n d (Z.pos scale) Hn eq_refl) as B. cbv zeta in B.
  set (m := ((2 * n * Z.pos scale + Z.pos d) / (2 * Z.pos d))%Z) in *.
  apply Z.div_le_lower_bound; [lia |].
  assert (X : (Z.pos d * (2 * Z.pos d' * m)
               <= Z.pos d * (2 * n' * Z.pos scale + Z.pos d'))%Z) by nia.
  apply Z.mul_le_mono_pos_l in X; lia.
Qed.

Lemma round_half_up_nonneg (q : Q) : 0 <= q -> 0 <= round_half_up q.
Proof.
  intros Hq.
  assert (Z0 : round_half_up 0 == 0) by reflexivity.
  rewrite <- Z0 at 1. apply round_half_up_mono; lra.
Qed.

(** Rounding depends on the value only, not on the fraction that carries it. *)
Lemma round_half_up_comp (p q : Q) :
  p == q -> round_half_up p == round_half_up q.
Proof.
  intros E. destruct (Qlt_le_dec p 0) as [Hneg | Hpos].
  - assert (H : - round_half_up p == - round_half_up q).
    { rewrite <- !round_half_up_opp.
      apply Qle_antisym; apply round_half_up_mono; lra. }
    lra.
  - apply Qle_antisym; apply round_half_up_mono; lra.
Qed.

(** ** Arithmetic of [BigNumber] *)

Lemma plus_NaN_r (x : BigNumber) : plus x NaN = NaN.
Proof. destruct x; reflexivity. Qed.

Lemma times_NaN_r (x : BigNumber) : times x NaN = NaN.
Proof. destruct x; reflexivity. Qed.

Lemma Qzero_true (q : Q) : Qzero q = true <-> q == 0.
Proof.
  unfold Qzero, Qeq. cbn. rewrite Z.eqb_eq. lia.
Qed.

Lemma Qzero_false (q : Q) : Qzero q = false <-> ~ q == 0.
Proof.
  rewrite <- Qzero_true. destruct (Qzero q); intuition congruence.
Qed.

Lemma nonneg_plus (x y : BigNumber) : nonneg x -> nonneg y -> nonneg (plus x y).
Proof.
  destruct x, y; cbn; try tauto. intros. lra.
Qed.

Lemma nonneg_times (x y : BigNumber) :
  nonneg x -> nonneg y -> nonneg (times x y).
Proof.
  destruct x, y; cbn; try tauto. intros. nra.
Qed.

(** ** The exception-and-state layer *)

Section MapM.

Context {A B : Type} (f : A -> M B).

Lemma mapM_cons_ok (x : A) (xs : list A) (s : Acc) (y : B) (s1 : Acc)
      (ys : list B) (s2 : Acc) :
  f x s = Ok (y, s1) -> mapM f xs s1 = Ok (ys, s2) ->
  mapM f (x :: xs) s = Ok (y :: ys, s2).
Proof.
  intros H1 H2. cbn. unfold bind. rewrite H1, H2. reflexivity.
Qed.

Lemma mapM_cons_inv (x : A) (xs : list A) (s : Acc) (zs : list B) (s2 : Acc) :
  mapM f (x :: xs) s = Ok (zs, s2) ->
  exists y s1 ys,
    f x s = Ok (y, s1) /\ mapM f xs s1 = Ok (ys, s2) /\ zs = y :: ys.
Proof.
  cbn. unfold bind.
  destruct (f x s) as [[y s1] | e]; [| discriminate].
  destruct (mapM f xs s1) as [[ys s2'] | e] eqn:Hxs; [| discriminate].
  unfold ret. intros H. inversion H; subst.
  exists y, s1, ys. auto.
Qed.

(** A callback that throws on one element makes the whole [map] throw. *)
Lemma mapM_throws (xs : list A) (x : A) :
  In x xs -> (forall s, exists e, f x s = Throw e) ->
  forall s, exists e, mapM f xs s = Throw e.
Proof.
  intros Hin Hx. induction xs as [| a xs IH]; [destruct Hin |].
  intros s. cbn. unfold bind.
  destruct (f a s) as [[y s1] | e] eqn:Ha.
  - destruct Hin as [-> | Hin].
    + destruct (Hx s) as [e He]. congruence.
    + destruct (IH Hin s1) as [e He]. rewrite He. eauto.
  - eauto.
Qed.

(** If the callback returns on every element, so does the [map]. *)
Lemma mapM_returns (xs : list A) :
  (forall x, In x xs -> forall s, exists y s', f x s = Ok (y, s')) ->
  forall s, exists ys s', mapM f xs s = Ok (ys, s').
Proof.
  induction xs as [| a xs IH]; intros H s.
  - cbn. unfold ret. eauto.
  - destruct (H a (or_introl eq_refl) s) as (y & s1 & Ha).
    destruct (IH (fun x Hx => H x (or_intror Hx)) s1) as (ys & s2 & Hys).
    exists (y :: ys), s2. eapply mapM_cons_ok; eauto.
Qed.

(** A [map] that throws was made to throw by one of its elements. *)
Lemma mapM_throw_inv (xs : list A) (s : Acc) (e : string) :
  mapM f xs s = Throw e -> exists x s', In x xs /\ f x s' = Throw e.
Proof.
  revert s. induction xs as [| a xs IH]; intros s; cbn; [discriminate |].
  unfold bind. destruct (f a s) as [[y s1] | e'] eqn:Ha.
  - destruct (mapM f xs s1) as [[ys s2] | e''] eqn:Hxs; [discriminate |].
    intros H. inversion H; subst.
    destruct (IH _ Hxs) as (x & s' & Hin & Hx). exists x, s'. auto.
  - intros H. inversion H; subst. exists a, s. auto.
Qed.

(** The results of a [map] that returns line up with its inputs. *)
Lemma mapM_Forall2 (R : A -> B -> Prop) (xs : list A) :
  (forall x s y s', In x xs -> f x s = Ok (y, s') -> R x y) ->
  forall s ys s', mapM f xs s = Ok (ys, s') -> Forall2 R xs ys.
Proof.
  induction xs as [| a xs IH]; intros H s ys s' Hm.
  - cbn in Hm. unfold ret in Hm. inversion Hm. constructor.
  - apply mapM_cons_inv in Hm. destruct Hm as (y & s1 & zs & Ha & Hxs & ->).
    constructor.
    + eapply H; [left; reflexivity | exact Ha].
    + eapply IH; [| exact Hxs]. intros; eapply H; [right |]; eauto.
Qed.

End MapM.

(** ** Reserve resolution *)

Lemma findReserve_None (pool : PoolType) (a : string) :
  findReserve pool a = None <-> ~ present pool a.
Proof.
  unfold findReserve, present. destruct pool as [rs]. cbn.
  induction rs as [| r rs IH]; cbn.
  - tauto.
  - destruct (String.eqb_spec (Reserve.address r) a) as [E | E].
    + split; [discriminate | intros H; exfalso; apply H; auto].
    + rewrite IH. tauto.
Qed.

Lemma findReserve_Some (pool : PoolType) (a : string) (r : Reserve.t) :
  findReserve pool a = Some r -> In r (reserves pool) /\ Reserve.address r = a.
Proof.
  unfold findReserve. intros H. apply find_some in H.
  destruct H as [Hin E]. apply String.eqb_eq in E. auto.
Qed.

Lemma present_found (pool : PoolType) (a : string) :
  present pool a -> exists r, findReserve pool a = Some r.
Proof.
  intros H. destruct (findReserve pool a) as [r |] eqn:E; [eauto |].
  apply findReserve_None in E. contradiction.
Qed.

(** ** The two callbacks, as functions of the resolved reserve *)

Lemma formatDeposit_found (pool : PoolType) (d : ObligationCollateral)
      (reserve : Reserve.t) (s : Acc) :
  findReserve pool (depositReserve d) = Some reserve ->
  exists rec s',
    formatDeposit pool d s = Ok (rec, s') /\
    Deposit.amount rec = depositAmount reserve d /\
    Deposit.amountUsd rec = times (depositAmount reserve d) (Reserve.price reserve) /\
    Deposit.loanToValueRatio rec = Reserve.loanToValueRatio reserve /\
    Deposit.liquidationThreshold rec = Reserve.liquidationThreshold reserve /\
    Deposit.reserveAddress rec = depositReserve d /\
    minPriceUserTotalSupply s' =
      plus (minPriceUserTotalSupply s)
           (times (depositAmount reserve d) (ofOptional (Reserve.minPrice reserve))) /\
    minPriceBorrowLimit s' =
      plus (minPriceBorrowLimit s)
           (times (times (depositAmount reserve d)
                         (ofOptional (Reserve.minPrice reserve)))
                  (Reserve.loanToValueRatio reserve)) /\
    maxPriceUserTotalWeightedBorrow s' = maxPriceUserTotalWeightedBorrow s.
Proof.
  intros H. unfold formatDeposit, toBase58. rewrite H.
  eexists _, _. split; [reflexivity |]. cbn. repeat split; reflexivity.
Qed.

Lemma formatDeposit_absent (pool : PoolType) (d : ObligationCollateral) (s : Acc) :
  findReserve pool (depositReserve d) = None ->
  formatDeposit pool d s = Throw "Deposit in obligation does not exist in the pool".
Proof.
  intros H. unfold formatDeposit, toBase58. rewrite H. reflexivity.
Qed.

Lemma formatBorrow_found (pool : PoolType) (b : ObligationLiquidity)
      (reserve : Reserve.t) (s : Acc) :
  findReserve pool (borrowReserve b) = Some reserve ->
  exists rec s',
    formatBorrow pool b s = Ok (rec, s') /\
    Borrow.amount rec = accruedAmount reserve b /\
    Borrow.amountUsd rec = times (accruedAmount reserve b) (Reserve.price reserve) /\
    Borrow.weightedAmountUsd rec =
      multipliedBy (ofOptional (Reserve.borrowWeight reserve))
                   (times (accruedAmount reserve b) (Reserve.price reserve)) /\
    Borrow.reserveAddress rec = borrowReserve b /\
    minPriceUserTotalSupply s' = minPriceUserTotalSupply s /\
    minPriceBorrowLimit s' = minPriceBorrowLimit s /\
    maxPriceUserTotalWeightedBorrow s' =
      plus (maxPriceUserTotalWeightedBorrow s)
           (times (times (accruedAmount reserve b) (conservativePrice reserve))
                  (borrowWeightOrMax reserve)).
Proof.
  intros H. unfold formatBorrow, toBase58. rewrite H.
  eexists _, _. split; [reflexivity |]. cbn. repeat split; reflexivity.
Qed.

Lemma formatBorrow_absent (pool : PoolType) (b : ObligationLiquidity) (s : Acc) :
  findReserve pool (borrowReserve b) = None ->
  formatBorrow pool b s = Throw "Borrow in obligation does not exist in the pool".
Proof.
  intros H. unfold formatBorrow, toBase58. rewrite H. reflexivity.
Qed.

(** ** Shape of a run of [formatObligation] *)

Lemma formatObligation_run (ob : ObligationAccount) (pool : PoolType) :
  formatObligation ob pool =
  match mapM (formatDeposit pool) (nonZeroDeposits (info ob)) acc0 with
  | Throw e => Throw e
  | Ok (ds, s1) =>
      match mapM (formatBorrow pool) (nonZeroBorrows (info ob)) s1 with
      | Throw e => Throw e
      | Ok (bs, s2) =>
          Ok (aggregate (pubkey ob) (lendingMarket (info ob))
                (positionCount (info ob)) ds bs s2)
      end
  end.
Proof.
  unfold formatObligation, bind, get, ret, toBase58, positionCount.
  destruct (mapM (formatDeposit pool) _ acc0) as [[ds s1] | e]; [| reflexivity].
  destruct (mapM (formatBorrow pool) _ s1) as [[bs s2] | e]; reflexivity.
Qed.

Lemma formatObligation_Ok_inv (ob : ObligationAccount) (pool : PoolType)
      (r : Report.t) :
  formatObligation ob pool = Ok r ->
  exists ds s1 bs s2,
    mapM (formatDeposit pool) (nonZeroDeposits (info ob)) acc0 = Ok (ds, s1) /\
    mapM (formatBorrow pool) (nonZeroBorrows (info ob)) s1 = Ok (bs, s2) /\
    r = aggregate (pubkey ob) (lendingMarket (info ob))
          (positionCount (info ob)) ds bs s2.
Proof.
  rewrite formatObligation_run.
  destruct (mapM (formatDeposit pool) _ acc0) as [[ds s1] | e] eqn:Hd;
    [| discriminate].
  destruct (mapM (formatBorrow pool) _ s1) as [[bs s2] | e] eqn:Hb;
    [| discriminate].
  intros H. inversion H. exists ds, s1, bs, s2. auto.
Qed.

(** A report is the aggregation of its own two lists. *)
Lemma formatObligation_aggregates (ob : ObligationAccount) (pool : PoolType)
      (r : Report.t) :
  formatObligation ob pool = Ok r ->
  exists s,
    r = aggregate (Report.address r) (Report.poolAddress r) (Report.positions r)
          (Report.deposits r) (Report.borrows r) s.
Proof.
  intros H. apply formatObligation_Ok_inv in H.
  destruct H as (ds & s1 & bs & s2 & _ & _ & ->). exists s2. reflexivity.
Qed.

(** ** Failure of reserve resolution *)

Lemma nonZero_true (n : BN) : nonZero n = true <-> n <> 0%Z.
Proof.
  unfold nonZero. rewrite negb_true_iff, Z.eqb_neq. tauto.
Qed.

Lemma In_nonZeroDeposits (o : Obligation) (d : ObligationCollateral) :
  In d (nonZeroDeposits o) <-> In d (deposits o) /\ depositedAmount d <> 0%Z.
Proof.
  unfold nonZeroDeposits. rewrite filter_In, nonZero_true. tauto.
Qed.

Lemma In_nonZeroBorrows (o : Obligation) (b : ObligationLiquidity) :
  In b (nonZeroBorrows o) <-> In b (borrows o) /\ borrowedAmountWads b <> 0%Z.
Proof.
  unfold nonZeroBorrows. rewrite filter_In, nonZero_true. tauto.
Qed.

Lemma deposits_throw (ob : ObligationAccount) (pool : PoolType) (s : Acc) :
  danglingDeposit ob pool ->
  exists e, mapM (formatDeposit pool) (nonZeroDeposits (info ob)) s = Throw e.
Proof.
  intros (d & Hin & Hnz & Habs).
  apply mapM_throws with (x := d).
  - apply In_nonZeroDeposits. auto.
  - intros s'. eexists. apply formatDeposit_absent.
    apply findReserve_None. exact Habs.
Qed.

Lemma borrows_throw (ob : ObligationAccount) (pool : PoolType) (s : Acc) :
  danglingBorrow ob pool ->
  exists e, mapM (formatBorrow pool) (nonZeroBorrows (info ob)) s = Throw e.
Proof.
  intros (b & Hin & Hnz & Habs).
  apply mapM_throws with (x := b).
  - apply In_nonZeroBorrows. auto.
  - intros s'. eexists. apply formatBorrow_absent.
    apply findReserve_None. exact Habs.
Qed.

Lemma deposits_throw_inv (ob : ObligationAccount) (pool : PoolType) (s : Acc)
      (e : string) :
  mapM (formatDeposit pool) (nonZeroDeposits (info ob)) s = Throw e ->
  danglingDeposit ob pool.
Proof.
  intros H. apply mapM_throw_inv in H. destruct H as (d & s' & Hin & Hd).
  apply In_nonZeroDeposits in Hin. destruct Hin as [Hin Hnz].
  exists d. repeat split; try assumption.
  intros Hp. apply present_found in Hp. destruct Hp as [r Hr].
  destruct (formatDeposit_found pool d r s' Hr) as (rec & s'' & E & _).
  congruence.
Qed.

Lemma borrows_throw_inv (ob : ObligationAccount) (pool : PoolType) (s : Acc)
      (e : string) :
  mapM (formatBorrow pool) (nonZeroBorrows (info ob)) s = Throw e ->
  danglingBorrow ob pool.
Proof.
  intros H. apply mapM_throw_inv in H. destruct H as (b & s' & Hin & Hb).
  apply In_nonZeroBorrows in Hin. destruct Hin as [Hin Hnz].
  exists b. repeat split; try assumption.
  intros Hp. apply present_found in Hp. destruct Hp as [r Hr].
  destruct (formatBorrow_found pool b r s' Hr) as (rec & s'' & E & _).
  congruence.
Qed.

(** C2. If a non-zero deposit or a non-zero borrow names a reserve address
    that the pool does not contain, [formatObligation] throws: no report,
    partial or otherwise, is returned and the position is not skipped. *)
Theorem missing_reserve_aborts (ob : ObligationAccount) (pool : PoolType) :
  danglingDeposit ob pool \/ danglingBorrow ob pool ->
  exists e, formatObligation ob pool = Throw e.
Proof.
  intros H. rewrite formatObligation_run.
  destruct (mapM (formatDeposit pool) _ acc0) as [[ds s1] | e] eqn:Hd.
  - destruct H as [H | H].
    + destruct (deposits_throw ob pool acc0 H) as [e He]. congruence.
    + destruct (borrows_throw ob pool s1 H) as [e He]. rewrite He. eauto.
  - eauto.
Qed.

(** C7. Whenever a report is returned, a zero [borrowLimit] gives a zero
    [borrowUtilization] and a zero [totalSupplyValue] gives zero
    [liquidationThresholdFactor], [borrowLimitFactor] and [borrowOverSupply];
    and whenever no report is returned, a reserve could not be resolved: the
    aggregation adds no way to fail. *)
Theorem zero_denominator_policy (ob : ObligationAccount) (pool : PoolType) :
  match formatObligation ob pool with
  | Ok r =>
      (isZero (Report.borrowLimit r) = true ->
       Report.borrowUtilization r = Fin 0) /\
      (isZero (Report.totalSupplyValue r) = true ->
       Report.liquidationThresholdFactor r = Fin 0 /\
       Report.borrowLimitFactor r = Fin 0 /\
       Report.borrowOverSupply r = Fin 0)
  | Throw _ => danglingDeposit ob pool \/ danglingBorrow ob pool
  end.
Proof.
  rewrite formatObligation_run.
  destruct (mapM (formatDeposit pool) _ acc0) as [[ds s1] | e] eqn:Hd.
  - destruct (mapM (formatBorrow pool) _ s1) as [[bs s2] | e] eqn:Hb.
    + unfold aggregate. cbn [Report.borrowLimit Report.borrowUtilization
        Report.totalSupplyValue Report.liquidationThresholdFactor
        Report.borrowLimitFactor Report.borrowOverSupply].
      split.
      * intros ->. reflexivity.
      * intros ->. auto.
    + right. eapply borrows_throw_inv, Hb.
  - left. eapply deposits_throw_inv, Hd.
Qed.

(** C3. In every report, [weightedBorrowUtilization] is zero when the
    conservative accumulator [minPriceBorrowLimit] is zero and is otherwise
    [weightedTotalBorrowValue] divided by the nominal [borrowLimit]: the guard
    and the divisor are two different quantities. *)
Theorem weightedBorrowUtilization_guard
        (ob : ObligationAccount) (pool : PoolType) (r : Report.t) :
  formatObligation ob pool = Ok r ->
  Report.weightedBorrowUtilization r =
    if isZero (Report.minPriceBorrowLimit r) then Fin 0
    else dividedBy (Report.weightedTotalBorrowValue r) (Report.borrowLimit r).
Proof.
  intros H. apply formatObligation_Ok_inv in H.
  destruct H as (ds & s1 & bs & s2 & _ & _ & ->). reflexivity.
Qed.

(** ** Zero-amount positions *)

Lemma filter_idem {A} (p : A -> bool) (xs : list A) :
  filter p (filter p xs) = filter p xs.
Proof.
  induction xs as [| x xs IH]; [reflexivity |].
  cbn. destruct (p x) eqn:E; cbn; rewrite ?E, IH; reflexivity.
Qed.

Lemma filter_none {A} (p : A -> bool) (xs : list A) :
  (forall x, In x xs -> p x = false) -> filter p xs = [].
Proof.
  induction xs as [| x xs IH]; intros H; [reflexivity |].
  cbn. rewrite (H x (or_introl eq_refl)). apply IH. intros; apply H; right; auto.
Qed.

Lemma deposits_aligned (ob : ObligationAccount) (pool : PoolType) (s s' : Acc)
      (ds : list Deposit.t) :
  mapM (formatDeposit pool) (nonZeroDeposits (info ob)) s = Ok (ds, s') ->
  Forall2 (fun d rec => depositedAmount d <> 0%Z /\
                        Deposit.reserveAddress rec = toBase58 (depositReserve d))
          (nonZeroDeposits (info ob)) ds.
Proof.
  apply mapM_Forall2. intros d t rec t' Hin Hd.
  apply In_nonZeroDeposits in Hin. split; [tauto |].
  destruct (findReserve pool (depositReserve d)) as [reserve |] eqn:E.
  - destruct (formatDeposit_found pool d reserve t E)
      as (rec' & t'' & Hd' & _ & _ & _ & _ & Ha & _).
    unfold toBase58. congruence.
  - rewrite formatDeposit_absent in Hd by exact E. discriminate.
Qed.

Lemma borrows_aligned (ob : ObligationAccount) (pool : PoolType) (s s' : Acc)
      (bs : list Borrow.t) :
  mapM (formatBorrow pool) (nonZeroBorrows (info ob)) s = Ok (bs, s') ->
  Forall2 (fun b rec => borrowedAmountWads b <> 0%Z /\
                        Borrow.reserveAddress rec = toBase58 (borrowReserve b))
          (nonZeroBorrows (info ob)) bs.
Proof.
  apply mapM_Forall2. intros b t rec t' Hin Hb.
  apply In_nonZeroBorrows in Hin. split; [tauto |].
  destruct (findReserve pool (borrowReserve b)) as [reserve |] eqn:E.
  - destruct (formatBorrow_found pool b reserve t E)
      as (rec' & t'' & Hb' & _ & _ & _ & Ha & _).
    unfold toBase58. congruence.
  - rewrite formatBorrow_absent in Hb by exact E. discriminate.
Qed.

(** C8. Zero-amount deposits and borrows change nothing: the result is the one
    of the obligation without them; the per-position lists of a report line up
    with the non-zero entries only, and [positions] counts those; and when no
    entry is non-zero every total and ratio is 0 and the borrow limit is not
    reached. *)
Theorem zero_amounts_inert (ob : ObligationAccount) (pool : PoolType) :
  formatObligation ob pool = formatObligation (stripZero ob) pool /\
  (forall r, formatObligation ob pool = Ok r ->
     Forall2 (fun d rec => depositedAmount d <> 0%Z /\
                           Deposit.reserveAddress rec = toBase58 (depositReserve d))
             (nonZeroDeposits (info ob)) (Report.deposits r) /\
     Forall2 (fun b rec => borrowedAmountWads b <> 0%Z /\
                           Borrow.reserveAddress rec = toBase58 (borrowReserve b))
             (nonZeroBorrows (info ob)) (Report.borrows r) /\
     Report.positions r =
       (List.length (Report.deposits r) + List.length (Report.borrows r))%nat) /\
  ((forall d, In d (deposits (info ob)) -> depositedAmount d = 0%Z) ->
   (forall b, In b (borrows (info ob)) -> borrowedAmountWads b = 0%Z) ->
   formatObligation ob pool =
     Ok (emptyReport (toBase58 (pubkey ob)) (toBase58 (lendingMarket (info ob))))).
Proof.
  split; [| split].
  - rewrite !formatObligation_run. unfold stripZero, positionCount. cbn [info pubkey].
    unfold nonZeroDeposits, nonZeroBorrows. cbn [deposits borrows lendingMarket].
    rewrite !filter_idem. reflexivity.
  - intros r H. apply formatObligation_Ok_inv in H.
    destruct H as (ds & s1 & bs & s2 & Hd & Hb & ->).
    pose proof (deposits_aligned _ _ _ _ _ Hd) as Fd.
    pose proof (borrows_aligned _ _ _ _ _ Hb) as Fb.
    unfold aggregate. cbn [Report.deposits Report.borrows Report.positions].
    repeat split; try assumption.
    unfold positionCount.
    rewrite (Forall2_length Fd), (Forall2_length Fb). reflexivity.
  - intros Hd Hb. rewrite formatObligation_run. unfold positionCount.
    assert (Ed : nonZeroDeposits (info ob) = []).
    { apply filter_none. intros d Hin. unfold nonZero.
      rewrite (Hd d Hin). reflexivity. }
    assert (Eb : nonZeroBorrows (info ob) = []).
    { apply filter_none. intros b Hin. unfold nonZero.
      rewrite (Hb b Hin). reflexivity. }
    rewrite Ed, Eb. reflexivity.
Qed.

(** ** Unset optional fields *)

Lemma deposits_keep_NaN (pool : PoolType) (xs : list ObligationCollateral) :
  forall s ds s',
    mapM (formatDeposit pool) xs s = Ok (ds, s') ->
    minPriceUserTotalSupply s = NaN -> minPriceUserTotalSupply s' = NaN.
Proof.
  induction xs as [| d xs IH]; intros s ds s' H Hs.
  - cbn in H. unfold ret in H. inversion H; subst. exact Hs.
  - apply mapM_cons_inv in H. destruct H as (rec & s1 & ys & Hd & Hxs & _).
    apply (IH _ _ _ Hxs).
    destruct (findReserve pool (depositReserve d)) as [reserve |] eqn:E.
    + destruct (formatDeposit_found pool d reserve s E)
        as (rec' & s1' & Hd' & _ & _ & _ & _ & _ & Hsum & _).
      assert (s1' = s1) by congruence. subst s1'.
      rewrite Hsum, Hs. reflexivity.
    + rewrite formatDeposit_absent in Hd by exact E. discriminate.
Qed.

Lemma deposits_reach_NaN (pool : PoolType) (xs : list ObligationCollateral)
      (d : ObligationCollateral) (reserve : Reserve.t) :
  In d xs ->
  findReserve pool (toBase58 (depositReserve d)) = Some reserve ->
  Reserve.minPrice reserve = None ->
  forall s ds s',
    mapM (formatDeposit pool) xs s = Ok (ds, s') ->
    minPriceUserTotalSupply s' = NaN.
Proof.
  intros Hin Hf Hnone.
  induction xs as [| a xs IH]; intros s ds s' H; [destruct Hin |].
  apply mapM_cons_inv in H. destruct H as (rec & s1 & ys & Ha & Hxs & _).
  destruct Hin as [-> | Hin].
  - apply (deposits_keep_NaN _ _ _ _ _ Hxs).
    destruct (formatDeposit_found pool d reserve s Hf)
      as (rec' & s1' & Hd' & _ & _ & _ & _ & _ & Hsum & _).
    assert (s1' = s1) by congruence. subst s1'.
    rewrite Hsum, Hnone. cbn [ofOptional].
    rewrite times_NaN_r, plus_NaN_r. reflexivity.
  - exact (IH Hin _ _ _ Hxs).
Qed.

(** The borrow callback leaves the two deposit accumulators alone. *)
Lemma borrows_keep_supply (pool : PoolType) (xs : list ObligationLiquidity) :
  forall s bs s',
    mapM (formatBorrow pool) xs s = Ok (bs, s') ->
    minPriceUserTotalSupply s' = minPriceUserTotalSupply s /\
    minPriceBorrowLimit s' = minPriceBorrowLimit s.
Proof.
  induction xs as [| b xs IH]; intros s bs s' H.
  - cbn in H. unfold ret in H. inversion H; subst. auto.
  - apply mapM_cons_inv in H. destruct H as (rec & s1 & ys & Hb & Hxs & _).
    destruct (IH _ _ _ Hxs) as [E1 E2]. rewrite E1, E2.
    destruct (findReserve pool (borrowReserve b)) as [reserve |] eqn:E.
    + destruct (formatBorrow_found pool b reserve s E)
        as (rec' & s1' & Hb' & _ & _ & _ & _ & Hs & Hl & _).
      assert (s1' = s1) by congruence. subst s1'. auto.
    + rewrite formatBorrow_absent in Hb by exact E. discriminate.
Qed.

(** C5 (amended). For a deposit whose reserve is present, the conservative
    supply accumulator grows by amount times [reserve.minPrice]; nothing falls
    back to [reserve.price]: with [minPrice] unset the accumulator is NaN, and
    so is [minPriceUserTotalSupply] in the report. *)
Theorem minPrice_accumulation :
  (forall pool d reserve s,
     findReserve pool (toBase58 (depositReserve d)) = Some reserve ->
     exists rec s',
       formatDeposit pool d s = Ok (rec, s') /\
       minPriceUserTotalSupply s' =
         match Reserve.minPrice reserve with
         | Some p => plus (minPriceUserTotalSupply s) (times (Deposit.amount rec) p)
         | None => NaN
         end) /\
  (forall ob pool r d reserve,
     formatObligation ob pool = Ok r ->
     In d (deposits (info ob)) -> depositedAmount d <> 0%Z ->
     findReserve pool (toBase58 (depositReserve d)) = Some reserve ->
     Reserve.minPrice reserve = None ->
     Report.minPriceUserTotalSupply r = NaN).
Proof.
  split.
  - intros pool d reserve s H.
    destruct (formatDeposit_found pool d reserve s H)
      as (rec & s' & Hd & Ha & _ & _ & _ & _ & Hs & _).
    exists rec, s'. split; [exact Hd |].
    rewrite Hs, Ha. destruct (Reserve.minPrice reserve) as [p |]; cbn [ofOptional].
    + reflexivity.
    + rewrite times_NaN_r, plus_NaN_r. reflexivity.
  - intros ob pool r d reserve H Hin Hnz Hf Hnone.
    apply formatObligation_Ok_inv in H.
    destruct H as (ds & s1 & bs & s2 & Hd & Hb & ->).
    unfold aggregate. cbn [Report.minPriceUserTotalSupply].
    rewrite (proj1 (borrows_keep_supply _ _ _ _ _ Hb)).
    eapply deposits_reach_NaN; [| exact Hf | exact Hnone | exact Hd].
    apply In_nonZeroDeposits. auto.
Qed.

Lemma sum_NaN {A} (w : A -> BigNumber) (xs : list A) :
  fold_left (fun acc x => plus acc (w x)) xs NaN = NaN.
Proof.
  induction xs as [| x xs IH]; [reflexivity | exact IH].
Qed.

(** A sum with a NaN term is NaN. *)
Lemma sum_with_NaN {A} (w : A -> BigNumber) (xs : list A) (x : A)
      (init : BigNumber) :
  In x xs -> w x = NaN ->
  fold_left (fun acc x => plus acc (w x)) xs init = NaN.
Proof.
  revert init. induction xs as [| a xs IH]; intros init Hin Hx; [destruct Hin |].
  cbn. destruct Hin as [-> | Hin].
  - rewrite Hx, plus_NaN_r. apply sum_NaN.
  - apply IH; assumption.
Qed.

Lemma Forall2_In_l {A B} (R : A -> B -> Prop) (xs : list A) (ys : list B)
      (x : A) :
  Forall2 R xs ys -> In x xs -> exists y, In y ys /\ R x y.
Proof.
  induction 1 as [| a b xs ys Hab _ IH]; intros Hin; [destruct Hin |].
  destruct Hin as [-> | Hin].
  - exists b. split; [left; reflexivity | exact Hab].
  - destruct (IH Hin) as (y & Hy & Hr). exists y. split; [right |]; assumption.
Qed.

Lemma Forall2_In_r {A B} (R : A -> B -> Prop) (xs : list A) (ys : list B)
      (y : B) :
  Forall2 R xs ys -> In y ys -> exists x, In x xs /\ R x y.
Proof.
  induction 1 as [| a b xs ys Hab _ IH]; intros Hin; [destruct Hin |].
  destruct Hin as [-> | Hin].
  - exists a. split; [left; reflexivity | exact Hab].
  - destruct (IH Hin) as (x & Hx & Hr). exists x. split; [right |]; assumption.
Qed.

(** Each borrow record is the valuation of its position against the reserve
    that [find] returned. *)
Lemma borrows_valued (pool : PoolType) (xs : list ObligationLiquidity)
      (s s' : Acc) (bs : list Borrow.t) :
  mapM (formatBorrow pool) xs s = Ok (bs, s') ->
  Forall2 (fun b rec =>
             exists reserve,
               findReserve pool (toBase58 (borrowReserve b)) = Some reserve /\
               Borrow.amount rec = accruedAmount reserve b /\
               Borrow.amountUsd rec =
                 times (accruedAmount reserve b) (Reserve.price reserve) /\
               Borrow.weightedAmountUsd rec =
                 multipliedBy (ofOptional (Reserve.borrowWeight reserve))
                              (Borrow.amountUsd rec))
          xs bs.
Proof.
  apply mapM_Forall2. intros b t rec t' _ Hb.
  destruct (findReserve pool (borrowReserve b)) as [reserve |] eqn:E.
  - destruct (formatBorrow_found pool b reserve t E)
      as (rec' & t'' & Hb' & Ha & Hu & Hw & _).
    assert (rec' = rec) by congruence. subst rec'.
    exists reserve. rewrite Hu. auto.
  - rewrite formatBorrow_absent in Hb by exact E. discriminate.
Qed.

(** On the conservative path an unset weight is replaced by the sentinel. *)
Lemma sentinel_on_conservative_path (pool : PoolType) (b : ObligationLiquidity)
      (reserve : Reserve.t) (s : Acc) :
  findReserve pool (toBase58 (borrowReserve b)) = Some reserve ->
  Reserve.borrowWeight reserve = None ->
  exists rec s',
    formatBorrow pool b s = Ok (rec, s') /\
    maxPriceUserTotalWeightedBorrow s' =
      plus (maxPriceUserTotalWeightedBorrow s)
           (times (times (Borrow.amount rec) (conservativePrice reserve)) U64_MAX) /\
    Borrow.weightedAmountUsd rec = NaN.
Proof.
  intros Hf Hw.
  destruct (formatBorrow_found pool b reserve s Hf)
    as (rec & s' & Hb & Ha & _ & Hwa & _ & _ & _ & Hm).
  exists rec, s'. split; [exact Hb |]. split.
  - rewrite Hm, Ha. unfold borrowWeightOrMax. rewrite Hw. reflexivity.
  - rewrite Hwa, Hw. reflexivity.
Qed.

(** C4 (behaviour of the code). A non-zero borrow on a reserve without
    [borrowWeight] makes [weightedTotalBorrowValue] NaN: the weighted amount is
    built from the unset field itself and not from the sentinel that the
    conservative accumulator uses. *)
Theorem unset_borrowWeight_is_NaN
        (ob : ObligationAccount) (pool : PoolType) (r : Report.t)
        (b : ObligationLiquidity) (reserve : Reserve.t) :
  formatObligation ob pool = Ok r ->
  In b (borrows (info ob)) -> borrowedAmountWads b <> 0%Z ->
  findReserve pool (toBase58 (borrowReserve b)) = Some reserve ->
  Reserve.borrowWeight reserve = None ->
  Report.weightedTotalBorrowValue r = NaN.
Proof.
  intros H Hin Hnz Hr Hw. apply formatObligation_Ok_inv in H.
  destruct H as (ds & s1 & bs & s2 & _ & Hb & ->).
  apply borrows_valued in Hb.
  assert (Hin' : In b (nonZeroBorrows (info ob)))
    by (apply In_nonZeroBorrows; auto).
  destruct (Forall2_In_l _ _ _ _ Hb Hin')
    as (rec & Hrec & reserve' & Hr' & _ & _ & Hwa).
  assert (reserve' = reserve) by congruence. subst reserve'.
  unfold aggregate. cbn [Report.weightedTotalBorrowValue]. unfold reduce.
  apply sum_with_NaN with (x := rec); [exact Hrec |].
  rewrite Hwa, Hw. reflexivity.
Qed.

(** ** Interest accrual *)

Lemma snapshotIndex_zero (b : ObligationLiquidity) :
  Qzero (snapshotIndex b) = (cumulativeBorrowRateWads b =? 0)%Z.
Proof.
  unfold Qzero, snapshotIndex.
  change (Qpower 10 (- 18)) with (1 # (10 ^ 18)%positive).
  cbn [Qnum Qmult inject_Z]. rewrite Z.mul_1_r. reflexivity.
Qed.

Lemma dividedBy_zero (x : BigNumber) (z : Q) :
  Qzero z = true -> isFinite (dividedBy x (Fin z)) = false.
Proof.
  intros Hz. destruct x as [| s | a]; cbn; [reflexivity | reflexivity |].
  rewrite Hz. destruct (Qzero a); reflexivity.
Qed.

Lemma accrued_zero_snapshot (reserve : Reserve.t) (b : ObligationLiquidity) :
  cumulativeBorrowRateWads b = 0%Z ->
  isFinite (accruedAmount reserve b) = false.
Proof.
  intros H. unfold accruedAmount.
  change (shiftedBy (ofBN (cumulativeBorrowRateWads b)) (- 18))
    with (Fin (snapshotIndex b)).
  apply dividedBy_zero. rewrite snapshotIndex_zero, H. reflexivity.
Qed.

(** C6 (amended). A zero snapshot index raises nothing: when every non-zero
    position resolves its reserve a report is returned, and in it each borrow
    whose snapshot index is zero carries an amount that is not finite (the
    library's division by zero: an infinity, or NaN). *)
Theorem zero_snapshot_not_rejected (ob : ObligationAccount) (pool : PoolType) :
  (forall d, In d (deposits (info ob)) -> depositedAmount d <> 0%Z ->
             present pool (toBase58 (depositReserve d))) ->
  (forall b, In b (borrows (info ob)) -> borrowedAmountWads b <> 0%Z ->
             present pool (toBase58 (borrowReserve b))) ->
  exists r,
    formatObligation ob pool = Ok r /\
    Forall2 (fun b rec => cumulativeBorrowRateWads b = 0%Z ->
                          isFinite (Borrow.amount rec) = false)
            (nonZeroBorrows (info ob)) (Report.borrows r).
Proof.
  intros Hd Hb. rewrite formatObligation_run.
  destruct (mapM (formatDeposit pool) _ acc0) as [[ds s1] | e] eqn:Ed.
  - destruct (mapM (formatBorrow pool) _ s1) as [[bs s2] | e] eqn:Eb.
    + eexists. split; [reflexivity |].
      unfold aggregate. cbn [Report.borrows].
      apply borrows_valued in Eb.
      eapply Forall2_impl; [| exact Eb].
      intros b rec (reserve & _ & Ha & _) Hz.
      rewrite Ha. apply accrued_zero_snapshot, Hz.
    + apply borrows_throw_inv in Eb. destruct Eb as (b & Hin & Hnz & Habs).
      exfalso. apply Habs. auto.
  - apply deposits_throw_inv in Ed. destruct Ed as (d & Hin & Hnz & Habs).
    exfalso. apply Habs. auto.
Qed.

Lemma accrued_finite (reserve : Reserve.t) (b : ObligationLiquidity) (c : Q) :
  cumulativeBorrowRateWads b <> 0%Z ->
  Reserve.cumulativeBorrowRate reserve = Fin c ->
  accruedAmount reserve b =
    Fin (round_half_up (rawAmount reserve b * c / snapshotIndex b)).
Proof.
  intros Hnz Hc. unfold accruedAmount. rewrite Hc.
  change (shiftedBy (ofBN (cumulativeBorrowRateWads b)) (- 18))
    with (Fin (snapshotIndex b)).
  change (shiftedBy (ofBN (borrowedAmountWads b)) (- 18 - Reserve.decimals reserve))
    with (Fin (rawAmount reserve b)).
  cbn [times dividedBy]. rewrite snapshotIndex_zero.
  apply Z.eqb_neq in Hnz. rewrite Hnz. reflexivity.
Qed.

(** C1 (amended). In a report, the amount of each borrow record is the stored
    debt shifted by -(18 + decimals), times the reserve's index, divided by the
    stored index shifted by -18.  When the stored index is not zero and the
    reserve's index is twice it, that amount is twice the raw amount rounded
    to twenty decimals: it is within 5e-21 of the double, and equal to it when
    the double has at most twenty decimals. *)
Theorem accrual_doubles :
  (forall ob pool r,
     formatObligation ob pool = Ok r ->
     Forall2
       (fun b rec =>
          exists reserve,
            findReserve pool (toBase58 (borrowReserve b)) = Some reserve /\
            Borrow.amount rec =
              dividedBy
                (times (shiftedBy (ofBN (borrowedAmountWads b))
                                  (- 18 - Reserve.decimals reserve))
                       (Reserve.cumulativeBorrowRate reserve))
                (shiftedBy (ofBN (cumulativeBorrowRateWads b)) (- 18)))
       (nonZeroBorrows (info ob)) (Report.borrows r)) /\
  (forall reserve b c,
     cumulativeBorrowRateWads b <> 0%Z ->
     Reserve.cumulativeBorrowRate reserve = Fin c ->
     c == 2 * snapshotIndex b ->
     exists q,
       accruedAmount reserve b = Fin q /\
       q == round_half_up (2 * rawAmount reserve b) /\
       Qabs (q - 2 * rawAmount reserve b) <= 1 # (2 * scale) /\
       (forall k : Z, 2 * rawAmount reserve b == k # scale ->
                      q == 2 * rawAmount reserve b)).
Proof.
  split.
  - intros ob pool r H. apply formatObligation_Ok_inv in H.
    destruct H as (ds & s1 & bs & s2 & _ & Hb & ->).
    unfold aggregate. cbn [Report.borrows].
    apply borrows_valued in Hb.
    eapply Forall2_impl; [| exact Hb].
    intros b rec (reserve & Hf & Ha & _). exists reserve. split; assumption.
  - intros reserve b c Hnz Hc Hdouble.
    rewrite (accrued_finite reserve b c Hnz Hc).
    set (x := rawAmount reserve b * c / snapshotIndex b).
    assert (Hi : ~ snapshotIndex b == 0).
    { apply Qzero_false. rewrite snapshotIndex_zero. apply Z.eqb_neq, Hnz. }
    assert (Hx : x == 2 * rawAmount reserve b).
    { unfold x. rewrite Hdouble. field. exact Hi. }
    exists (round_half_up x). split; [reflexivity |].
    split; [apply round_half_up_comp, Hx |]. split.
    + rewrite <- Hx. apply round_half_up_error.
    + intros k Hk. rewrite <- Hx. apply round_half_up_exact with (k := k).
      rewrite Hx. exact Hk.
Qed.

(** ** Order of the aggregates *)

Section Folds.

Context {A : Type}.

Lemma fold_mono (stepL stepR : BigNumber -> A -> BigNumber)
      (R : A -> A -> Prop) :
  (forall a1 a2 x y, finite_le a1 a2 -> R x y ->
                     finite_le (stepL a1 x) (stepR a2 y)) ->
  forall xs ys, Forall2 R xs ys ->
  forall a1 a2, finite_le a1 a2 ->
    finite_le (fold_left stepL xs a1) (fold_left stepR ys a2).
Proof.
  intros Hstep xs ys F. induction F as [| x y xs ys Hxy _ IH]; intros a1 a2 Ha.
  - exact Ha.
  - cbn. apply IH. apply Hstep; assumption.
Qed.

Lemma fold_nonneg (step : BigNumber -> A -> BigNumber) (P : A -> Prop) :
  (forall a x, nonneg a -> P x -> nonneg (step a x)) ->
  forall xs, Forall P xs -> forall a, nonneg a -> nonneg (fold_left step xs a).
Proof.
  intros Hstep xs F. induction F as [| x xs Hx _ IH]; intros a Ha.
  - exact Ha.
  - cbn. apply IH. apply Hstep; assumption.
Qed.

Lemma Forall_diag (P : A -> Prop) (R : A -> A -> Prop) (xs : list A) :
  (forall x, P x -> R x x) -> Forall P xs -> Forall2 R xs xs.
Proof.
  intros H F. induction F; constructor; auto.
Qed.

End Folds.

Lemma deposits_valued (pool : PoolType) (xs : list ObligationCollateral)
      (s s' : Acc) (ds : list Deposit.t) :
  mapM (formatDeposit pool) xs s = Ok (ds, s') ->
  Forall2 (fun d rec =>
             exists reserve,
               findReserve pool (toBase58 (depositReserve d)) = Some reserve /\
               Deposit.loanToValueRatio rec = Reserve.loanToValueRatio reserve /\
               Deposit.liquidationThreshold rec =
                 Reserve.liquidationThreshold reserve)
          xs ds.
Proof.
  apply mapM_Forall2. intros d t rec t' _ Hd.
  destruct (findReserve pool (depositReserve d)) as [reserve |] eqn:E.
  - destruct (formatDeposit_found pool d reserve t E)
      as (rec' & t'' & Hd' & _ & _ & Hl & Ht & _).
    assert (rec' = rec) by congruence. subst rec'.
    exists reserve. auto.
  - rewrite formatDeposit_absent in Hd by exact E. discriminate.
Qed.

(** C10. When every reserve that a non-zero deposit refers to has
    [loanToValueRatio] at most [liquidationThreshold] (two fractions) and the
    deposits of the report have non-negative [amountUsd], the report's
    [borrowLimit] is at most its [liquidationThreshold]. *)
Theorem borrowLimit_below_liquidationThreshold
        (ob : ObligationAccount) (pool : PoolType) (r : Report.t) :
  formatObligation ob pool = Ok r ->
  (forall d reserve,
     In d (deposits (info ob)) -> depositedAmount d <> 0%Z ->
     findReserve pool (toBase58 (depositReserve d)) = Some reserve ->
     finite_le (Reserve.loanToValueRatio reserve)
               (Reserve.liquidationThreshold reserve)) ->
  (forall rec, In rec (Report.deposits r) -> nonneg (Deposit.amountUsd rec)) ->
  finite_le (Report.borrowLimit r) (Report.liquidationThreshold r).
Proof.
  intros H Hres Husd. apply formatObligation_Ok_inv in H.
  destruct H as (ds & s1 & bs & s2 & Hd & _ & ->).
  unfold aggregate in *.
  cbn [Report.borrowLimit Report.liquidationThreshold Report.deposits] in *.
  unfold reduce.
  apply fold_mono with
    (R := fun x y => x = y /\ nonneg (Deposit.amountUsd x) /\
                     finite_le (Deposit.loanToValueRatio x)
                               (Deposit.liquidationThreshold x)).
  - intros a1 a2 x y Ha (<- & Hu & Hl).
    destruct a1, a2, (Deposit.amountUsd x), (Deposit.loanToValueRatio x),
      (Deposit.liquidationThreshold x); cbn in *; try tauto. nra.
  - apply Forall_diag with (P := fun x => In x ds); [| apply Forall_forall; auto].
    intros rec Hin. split; [reflexivity |]. split; [apply Husd, Hin |].
    apply deposits_valued in Hd.
    destruct (Forall2_In_r _ _ _ _ Hd Hin) as (d & Hdin & reserve & Hf & -> & ->).
    apply In_nonZeroDeposits in Hdin. destruct Hdin as [Hdin Hnz].
    eapply Hres; eauto.
  - cbn. lra.
Qed.

(** C9 (amended). On records with non-negative values, raising the
    [amountUsd] of one deposit, the other deposits and the borrows unchanged,
    lowers neither [totalSupplyValue] nor [borrowLimit]; it does not raise
    [borrowUtilization] as long as [borrowLimit] was not zero before.  The
    accumulators, which move with the deposit, play no part. *)
Theorem deposit_increase_monotone
        (address poolAddress : string) (n : nat)
        (pre post : list Deposit.t) (d d' : Deposit.t)
        (bs : list Borrow.t) (s s' : Acc) :
  Forall depositRegular (pre ++ d :: post) ->
  Forall (fun b => nonneg (Borrow.amountUsd b)) bs ->
  Deposit.loanToValueRatio d' = Deposit.loanToValueRatio d ->
  finite_le (Deposit.amountUsd d) (Deposit.amountUsd d') ->
  let r := aggregate address poolAddress n (pre ++ d :: post) bs s in
  let r' := aggregate address poolAddress n (pre ++ d' :: post) bs s' in
  finite_le (Report.totalSupplyValue r) (Report.totalSupplyValue r') /\
  finite_le (Report.borrowLimit r) (Report.borrowLimit r') /\
  (isZero (Report.borrowLimit r) = false ->
   finite_le (Report.borrowUtilization r') (Report.borrowUtilization r)).
Proof.
  intros Hds Hbs Hltv Hup r r'.
  set (R := fun x y : Deposit.t =>
              depositRegular x /\
              finite_le (Deposit.amountUsd x) (Deposit.amountUsd y) /\
              Deposit.loanToValueRatio y = Deposit.loanToValueRatio x).
  assert (F : Forall2 R (pre ++ d :: post) (pre ++ d' :: post)).
  { apply Forall_app in Hds. destruct Hds as [Hpre Hrest].
    inversion Hrest as [| ? ? Hd Hpost]; subst.
    assert (Hdiag : forall x, depositRegular x -> R x x).
    { intros x Hx. split; [exact Hx |]. split; [| reflexivity].
      destruct Hx as [Hx _]. unfold nonneg in Hx.
      destruct (Deposit.amountUsd x); cbn in *; try tauto. lra. }
    apply Forall2_app; [eapply Forall_diag; eauto |].
    constructor; [| eapply Forall_diag; eauto].
    split; [exact Hd |]. split; assumption. }
  assert (Hsupply :
    finite_le (Report.totalSupplyValue r) (Report.totalSupplyValue r')).
  { unfold r, r', aggregate. cbn [Report.totalSupplyValue]. unfold reduce.
    apply fold_mono with (R := R); [| exact F | cbn; lra].
    intros a1 a2 x y Ha (_ & Hxy & _).
    destruct a1, a2, (Deposit.amountUsd x), (Deposit.amountUsd y);
      cbn in *; try tauto. lra. }
  assert (Hlimit : finite_le (Report.borrowLimit r) (Report.borrowLimit r')).
  { unfold r, r', aggregate. cbn [Report.borrowLimit]. unfold reduce.
    apply fold_mono with (R := R); [| exact F | cbn; lra].
    intros a1 a2 x y Ha ((_ & Hl) & Hxy & ->). unfold nonneg in Hl.
    destruct a1, a2, (Deposit.amountUsd x), (Deposit.amountUsd y),
      (Deposit.loanToValueRatio x); cbn in *; try tauto. nra. }
  split; [exact Hsupply |]. split; [exact Hlimit |].
  assert (Hpos : nonneg (Report.borrowLimit r)).
  { unfold r, aggregate. cbn [Report.borrowLimit]. unfold reduce.
    apply fold_nonneg with (P := depositRegular); [| exact Hds | cbn; lra].
    intros a x Ha [Hu Hl]. apply nonneg_plus; [apply nonneg_times |]; assumption. }
  assert (Hdebt : nonneg (Report.totalBorrowValue r)).
  { unfold r, aggregate. cbn [Report.totalBorrowValue]. unfold reduce.
    apply fold_nonneg with (P := fun b => nonneg (Borrow.amountUsd b));
      [| exact Hbs | cbn; lra].
    intros a x Ha Hx. apply nonneg_plus; assumption. }
  assert (Et : Report.totalBorrowValue r' = Report.totalBorrowValue r)
    by reflexivity.
  assert (Eu : Report.borrowUtilization r =
               if isZero (Report.borrowLimit r) then Fin 0
               else dividedBy (Report.totalBorrowValue r) (Report.borrowLimit r))
    by reflexivity.
  assert (Eu' : Report.borrowUtilization r' =
               if isZero (Report.borrowLimit r') then Fin 0
               else dividedBy (Report.totalBorrowValue r') (Report.borrowLimit r'))
    by reflexivity.
  rewrite Eu, Eu', Et. clear Eu Eu' Et Hsupply F.
  destruct (Report.borrowLimit r) as [| | p]; try contradiction.
  destruct (Report.borrowLimit r') as [| | p']; try contradiction.
  destruct (Report.totalBorrowValue r) as [| | t]; try contradiction.
  cbn in Hlimit, Hpos, Hdebt. cbn [isZero]. intros Hzb. rewrite Hzb.
  pose proof (proj1 (Qzero_false p) Hzb) as Hz.
  assert (Hp : 0 < p).
  { destruct (Qlt_le_dec 0 p); [assumption | exfalso; apply Hz; lra]. }
  assert (Hp' : 0 < p') by lra.
  assert (Hz' : Qzero p' = false) by (apply Qzero_false; lra).
  rewrite Hz'. cbn [dividedBy]. rewrite Hzb, Hz'.
  cbn [finite_le].
  assert (H0 : 0 <= t / p') by (apply Qle_shift_div_l; lra).
  apply round_half_up_mono; [exact H0 |].
  apply Qle_shift_div_r; [exact Hp' |].
  assert (Hq : 0 <= t / p) by (apply Qle_shift_div_l; lra).
  assert (Hm : t / p * p == t) by (field; lra).
  nra.
Qed.

(** ** The statements at sample inputs *)

Open Scope string_scope.

Lemma missing_reserve_aborts_witness :
  (danglingDeposit obDangling pool2 \/ danglingBorrow obDangling pool2) /\
  exists e, formatObligation obDangling pool2 = Throw e.
Proof.
  assert (H : danglingDeposit obDangling pool2 \/ danglingBorrow obDangling pool2).
  { left. exists (mkCollateral "BTC" 1).
    split; [cbn; auto |]. split; [discriminate |].
    unfold present. cbn. intros [H | [H | []]]; discriminate. }
  split; [exact H | exact (missing_reserve_aborts obDangling pool2 H)].
Defined.

Lemma zero_denominator_policy_witness :
  exists r,
    formatObligation ob2 poolSpotZero = Ok r /\
    isZero (Report.borrowLimit r) = true /\
    isZero (Report.totalBorrowValue r) = false /\
    Report.borrowUtilization r = Fin 0.
Proof.
  pose proof (zero_denominator_policy ob2 poolSpotZero) as P.
  destruct (formatObligation ob2 poolSpotZero) as [r | e] eqn:E.
  - exists r. split; [reflexivity |].
    assert (Hz : isZero (Report.borrowLimit r) = true).
    { vm_compute in E. inversion E. reflexivity. }
    split; [exact Hz |]. split.
    + vm_compute in E. inversion E. reflexivity.
    + exact (proj1 P Hz).
  - vm_compute in E. discriminate.
Defined.

Lemma weightedBorrowUtilization_guard_witness :
  exists r,
    formatObligation ob2 poolFloorZero = Ok r /\
    Report.weightedBorrowUtilization r =
      if isZero (Report.minPriceBorrowLimit r) then Fin 0
      else dividedBy (Report.weightedTotalBorrowValue r) (Report.borrowLimit r).
Proof.
  eexists. split.
  - vm_compute. reflexivity.
  - apply (weightedBorrowUtilization_guard ob2 poolFloorZero).
    vm_compute. reflexivity.
Defined.

(** The guard and the divisor of [weightedBorrowUtilization] part ways in
    both directions: a zero guard hides a usable limit, and a non-zero guard
    lets a division by a zero limit through. *)
Example guard_zero_while_limit_positive :
  exists r,
    formatObligation ob2 poolFloorZero = Ok r /\
    isZero (Report.minPriceBorrowLimit r) = true /\
    isZero (Report.borrowLimit r) = false /\
    Report.weightedBorrowUtilization r = Fin 0.
Proof.
  eexists. split; [vm_compute; reflexivity |]. repeat split; reflexivity.
Qed.

Example limit_zero_while_guard_positive :
  exists r,
    formatObligation ob2 poolSpotZero = Ok r /\
    isZero (Report.minPriceBorrowLimit r) = false /\
    isZero (Report.borrowLimit r) = true /\
    Report.weightedBorrowUtilization r = Infinity false.
Proof.
  eexists. split; [vm_compute; reflexivity |]. repeat split; reflexivity.
Qed.

Lemma zero_amounts_inert_witness :
  (forall d, In d (deposits (info obEmptied)) -> depositedAmount d = 0%Z) /\
  (forall b, In b (borrows (info obEmptied)) -> borrowedAmountWads b = 0%Z) /\
  formatObligation obEmptied pool2 = Ok (emptyReport "owner" "market").
Proof.
  assert (Hd : forall d, In d (deposits (info obEmptied)) -> depositedAmount d = 0%Z).
  { cbn. intros d [<- | [<- | []]]; reflexivity. }
  assert (Hb : forall b, In b (borrows (info obEmptied)) -> borrowedAmountWads b = 0%Z).
  { cbn. intros b [<- | []]. reflexivity. }
  split; [exact Hd |]. split; [exact Hb |].
  exact (proj2 (proj2 (zero_amounts_inert obEmptied pool2)) Hd Hb).
Defined.

Lemma minPrice_accumulation_witness :
  findReserve pool2 (toBase58 (depositReserve solDeposit)) = Some sol /\
  exists rec s',
    formatDeposit pool2 solDeposit acc0 = Ok (rec, s') /\
    minPriceUserTotalSupply s' =
      match Reserve.minPrice sol with
      | Some p => plus (minPriceUserTotalSupply acc0) (times (Deposit.amount rec) p)
      | None => NaN
      end.
Proof.
  split; [reflexivity |].
  apply (proj1 minPrice_accumulation pool2 solDeposit sol acc0). reflexivity.
Defined.

(** With [minPrice] unset the conservative supply is NaN and not the value at
    the spot price. *)
Lemma unset_minPrice_no_fallback :
  exists r d,
    formatObligation ob1 poolNoMinPrice = Ok r /\
    Report.deposits r = [d] /\
    Reserve.minPrice solNoMinPrice = None /\
    Report.minPriceUserTotalSupply r = NaN /\
    Report.minPriceUserTotalSupply r <>
      plus (Fin 0) (times (Deposit.amount d) (Deposit.price d)).
Proof.
  eexists. eexists. split; [vm_compute; reflexivity |].
  split; [reflexivity |]. split; [reflexivity |]. split; [reflexivity |].
  cbn. discriminate.
Qed.

Lemma unset_borrowWeight_is_NaN_witness :
  exists r,
    formatObligation ob2 pool2 = Ok r /\
    In usdcBorrow (borrows (info ob2)) /\
    borrowedAmountWads usdcBorrow <> 0%Z /\
    findReserve pool2 (toBase58 (borrowReserve usdcBorrow)) = Some usdc /\
    Reserve.borrowWeight usdc = None /\
    Report.weightedTotalBorrowValue r = NaN.
Proof.
  eexists. split; [vm_compute; reflexivity |].
  assert (Hin : In usdcBorrow (borrows (info ob2))) by (left; reflexivity).
  assert (Hnz : borrowedAmountWads usdcBorrow <> 0%Z) by discriminate.
  split; [exact Hin |]. split; [exact Hnz |].
  split; [reflexivity |]. split; [reflexivity |].
  apply (unset_borrowWeight_is_NaN ob2 pool2 _ usdcBorrow usdc);
    [vm_compute; reflexivity | exact Hin | exact Hnz | reflexivity | reflexivity].
Defined.

Lemma zero_snapshot_not_rejected_witness :
  (forall d, In d (deposits (info obZeroIndex)) -> depositedAmount d <> 0%Z ->
             present pool2 (toBase58 (depositReserve d))) /\
  (forall b, In b (borrows (info obZeroIndex)) -> borrowedAmountWads b <> 0%Z ->
             present pool2 (toBase58 (borrowReserve b))) /\
  exists r,
    formatObligation obZeroIndex pool2 = Ok r /\
    Forall2 (fun b rec => cumulativeBorrowRateWads b = 0%Z ->
                          isFinite (Borrow.amount rec) = false)
            (nonZeroBorrows (info obZeroIndex)) (Report.borrows r).
Proof.
  assert (Hd : forall d, In d (deposits (info obZeroIndex)) ->
                         depositedAmount d <> 0%Z ->
                         present pool2 (toBase58 (depositReserve d))).
  { cbn. intros d [<- | []] _. left. reflexivity. }
  assert (Hb : forall b, In b (borrows (info obZeroIndex)) ->
                         borrowedAmountWads b <> 0%Z ->
                         present pool2 (toBase58 (borrowReserve b))).
  { cbn. intros b [<- | []] _. right. left. reflexivity. }
  split; [exact Hd |]. split; [exact Hb |].
  exact (zero_snapshot_not_rejected obZeroIndex pool2 Hd Hb).
Defined.

(** A stored index of zero goes through: the report is returned and the debt
    in it is infinite. *)
Lemma zero_snapshot_returns_report :
  exists r rec,
    formatObligation obZeroIndex pool2 = Ok r /\
    borrows (info obZeroIndex) = [zeroIndexBorrow] /\
    borrowedAmountWads zeroIndexBorrow <> 0%Z /\
    cumulativeBorrowRateWads zeroIndexBorrow = 0%Z /\
    Report.borrows r = [rec] /\
    Borrow.amount rec = Infinity false /\
    Report.totalBorrowValue r = Infinity false.
Proof.
  eexists. eexists. split; [vm_compute; reflexivity |].
  split; [reflexivity |]. split; [discriminate |].
  repeat split; reflexivity.
Qed.

Lemma accrual_doubles_witness :
  cumulativeBorrowRateWads usdcBorrow <> 0%Z /\
  Reserve.cumulativeBorrowRate usdcDoubled = Fin 2 /\
  2 == 2 * snapshotIndex usdcBorrow /\
  exists q,
    accruedAmount usdcDoubled usdcBorrow = Fin q /\
    q == round_half_up (2 * rawAmount usdcDoubled usdcBorrow) /\
    Qabs (q - 2 * rawAmount usdcDoubled usdcBorrow) <= 1 # (2 * scale) /\
    (forall k : Z, 2 * rawAmount usdcDoubled usdcBorrow == k # scale ->
                   q == 2 * rawAmount usdcDoubled usdcBorrow).
Proof.
  assert (Hnz : cumulativeBorrowRateWads usdcBorrow <> 0%Z) by discriminate.
  assert (Hd : 2 == 2 * snapshotIndex usdcBorrow) by reflexivity.
  split; [exact Hnz |]. split; [reflexivity |]. split; [exact Hd |].
  exact (proj2 accrual_doubles usdcDoubled usdcBorrow 2 Hnz eq_refl Hd).
Defined.

(** With the index doubled, a debt that uses the last places of its wad
    encoding is not doubled exactly: the quotient keeps twenty decimals. *)
Lemma doubled_index_not_exact :
  exists r rec q,
    formatObligation obDust poolDoubled = Ok r /\
    borrows (info obDust) = [dustBorrow] /\
    findReserve poolDoubled (toBase58 (borrowReserve dustBorrow)) = Some usdcDoubled /\
    Reserve.cumulativeBorrowRate usdcDoubled = Fin 2 /\
    2 == 2 * snapshotIndex dustBorrow /\
    Report.borrows r = [rec] /\
    Borrow.amount rec = Fin q /\
    ~ q == 2 * rawAmount usdcDoubled dustBorrow.
Proof.
  eexists. eexists. eexists. split; [vm_compute; reflexivity |].
  split; [reflexivity |]. split; [reflexivity |]. split; [reflexivity |].
  split; [reflexivity |]. split; [reflexivity |]. split; [reflexivity |].
  vm_compute. discriminate.
Qed.

Lemma borrowLimit_below_liquidationThreshold_witness :
  exists r,
    formatObligation ob2 pool2 = Ok r /\
    (forall d reserve,
       In d (deposits (info ob2)) -> depositedAmount d <> 0%Z ->
       findReserve pool2 (toBase58 (depositReserve d)) = Some reserve ->
       finite_le (Reserve.loanToValueRatio reserve)
                 (Reserve.liquidationThreshold reserve)) /\
    (forall rec, In rec (Report.deposits r) -> nonneg (Deposit.amountUsd rec)) /\
    finite_le (Report.borrowLimit r) (Report.liquidationThreshold r).
Proof.
  eexists. split; [vm_compute; reflexivity |].
  match goal with
  | |- ?H1 /\ ?H2 /\ _ =>
      assert (Hres : H1);
      [| assert (Husd : H2);
         [| split; [exact Hres |]; split; [exact Husd |];
            apply (borrowLimit_below_liquidationThreshold ob2 pool2 _
                     ltac:(vm_compute; reflexivity) Hres Husd)]]
  end.
  - cbn. intros d reserve [<- | []] _ H. vm_compute in H. inversion H.
    vm_compute. discriminate.
  - cbn. intros rec [<- | []]. vm_compute. discriminate.
Defined.

Lemma deposit_increase_monotone_witness :
  let r := aggregate "owner" "market" 2 [deposit100] [borrow50] acc0 in
  let r' := aggregate "owner" "market" 2 [deposit200] [borrow50] acc0 in
  Forall depositRegular ([] ++ deposit100 :: []) /\
  Forall (fun b => nonneg (Borrow.amountUsd b)) [borrow50] /\
  Deposit.loanToValueRatio deposit200 = Deposit.loanToValueRatio deposit100 /\
  finite_le (Deposit.amountUsd deposit100) (Deposit.amountUsd deposit200) /\
  isZero (Report.borrowLimit r) = false /\
  finite_le (Report.totalSupplyValue r) (Report.totalSupplyValue r') /\
  finite_le (Report.borrowLimit r) (Report.borrowLimit r') /\
  finite_le (Report.borrowUtilization r') (Report.borrowUtilization r).
Proof.
  intros r r'.
  assert (Hds : Forall depositRegular ([] ++ deposit100 :: [])).
  { repeat constructor; vm_compute; discriminate. }
  assert (Hbs : Forall (fun b => nonneg (Borrow.amountUsd b)) [borrow50]).
  { repeat constructor. vm_compute. discriminate. }
  assert (Hup : finite_le (Deposit.amountUsd deposit100)
                          (Deposit.amountUsd deposit200)).
  { vm_compute. discriminate. }
  assert (Hz : isZero (Report.borrowLimit r) = false) by reflexivity.
  pose proof (deposit_increase_monotone "owner" "market" 2 [] [] deposit100
                deposit200 [borrow50] acc0 acc0 Hds Hbs eq_refl Hup)
    as (H1 & H2 & H3).
  split; [exact Hds |]. split; [exact Hbs |]. split; [reflexivity |].
  split; [exact Hup |]. split; [exact Hz |]. split; [exact H1 |].
  split; [exact H2 | exact (H3 Hz)].
Defined.

(** A deposit worth nothing gives a zero limit and hence a utilisation of 0;
    once the same deposit is worth 200 dollars the utilisation is 0.3125. *)
Lemma utilization_rises_from_zero_limit :
  exists r r' d d',
    formatObligation ob2 poolWorthless = Ok r /\
    formatObligation ob2 poolWeighted = Ok r' /\
    Report.deposits r = [d] /\ Report.deposits r' = [d'] /\
    Report.borrows r = Report.borrows r' /\
    nonneg (Deposit.amountUsd d) /\
    finite_le (Deposit.amountUsd d) (Deposit.amountUsd d') /\
    Deposit.loanToValueRatio d' = Deposit.loanToValueRatio d /\
    nonneg (Deposit.loanToValueRatio d) /\
    Forall (fun b => nonneg (Borrow.amountUsd b)) (Report.borrows r) /\
    finite_le (Report.totalSupplyValue r) (Report.totalSupplyValue r') /\
    finite_le (Report.borrowLimit r) (Report.borrowLimit r') /\
    ~ finite_le (Report.borrowUtilization r') (Report.borrowUtilization r).
Proof.
  eexists. eexists. eexists. eexists.
  split; [vm_compute; reflexivity |]. split; [vm_compute; reflexivity |].
  split; [reflexivity |]. split; [reflexivity |]. split; [reflexivity |].
  split; [vm_compute; discriminate |]. split; [vm_compute; discriminate |].
  split; [reflexivity |]. split; [vm_compute; discriminate |].
  split; [repeat constructor; vm_compute; discriminate |].
  split; [vm_compute; discriminate |]. split; [vm_compute; discriminate |].
  vm_compute. intros H. apply H. reflexivity.
Qed.

Close Scope string_scope.

(** * Further properties of [formatObligation] *)

(** ** The run as a pure computation *)

Lemma formatDeposit_eq (pool : PoolType) (d : ObligationCollateral) (s : Acc) :
  formatDeposit pool d s =
  match findReserve pool (toBase58 (depositReserve d)) with
  | Some reserve => Ok (depositRecord reserve d, depositStep reserve d s)
  | None => Throw depositMessage
  end.
Proof.
  unfold formatDeposit.
  destruct (findReserve pool (toBase58 (depositReserve d))); reflexivity.
Qed.

Lemma formatBorrow_eq (pool : PoolType) (b : ObligationLiquidity) (s : Acc) :
  formatBorrow pool b s =
  match findReserve pool (toBase58 (borrowReserve b)) with
  | Some reserve => Ok (borrowRecord reserve b, borrowStep reserve b s)
  | None => Throw borrowMessage
  end.
Proof.
  unfold formatBorrow.
  destruct (findReserve pool (toBase58 (borrowReserve b))); reflexivity.
Qed.

Lemma mapM_formatDeposit (pool : PoolType) (xs : list ObligationCollateral) :
  forall s,
    mapM (formatDeposit pool) xs s =
    match resolve pool depositReserve xs with
    | Some ps => Ok (depositRecords ps, depositSteps ps s)
    | None => Throw depositMessage
    end.
Proof.
  induction xs as [| d xs IH]; intros s; [reflexivity |].
  cbn [mapM resolve]. unfold bind. rewrite formatDeposit_eq.
  destruct (findReserve pool (toBase58 (depositReserve d))) as [reserve |];
    [| reflexivity].
  rewrite IH. destruct (resolve pool depositReserve xs) as [ps |]; reflexivity.
Qed.

Lemma mapM_formatBorrow (pool : PoolType) (xs : list ObligationLiquidity) :
  forall s,
    mapM (formatBorrow pool) xs s =
    match resolve pool borrowReserve xs with
    | Some ps => Ok (borrowRecords ps, borrowSteps ps s)
    | None => Throw borrowMessage
    end.
Proof.
  induction xs as [| b xs IH]; intros s; [reflexivity |].
  cbn [mapM resolve]. unfold bind. rewrite formatBorrow_eq.
  destruct (findReserve pool (toBase58 (borrowReserve b))) as [reserve |];
    [| reflexivity].
  rewrite IH. destruct (resolve pool borrowReserve xs) as [ps |]; reflexivity.
Qed.

(** [formatObligation] without the monad. *)
Lemma formatObligation_pure (ob : ObligationAccount) (pool : PoolType) :
  formatObligation ob pool =
  match resolve pool depositReserve (nonZeroDeposits (info ob)) with
  | None => Throw depositMessage
  | Some pd =>
      match resolve pool borrowReserve (nonZeroBorrows (info ob)) with
      | None => Throw borrowMessage
      | Some pb =>
          Ok (aggregate (pubkey ob) (lendingMarket (info ob))
                (positionCount (info ob))
                (depositRecords pd) (borrowRecords pb)
                (borrowSteps pb (depositSteps pd acc0)))
      end
  end.
Proof.
  rewrite formatObligation_run, mapM_formatDeposit.
  destruct (resolve pool depositReserve _) as [pd |]; [| reflexivity].
  rewrite mapM_formatBorrow.
  destruct (resolve pool borrowReserve _) as [pb |]; reflexivity.
Qed.

Section Resolve.

Context {A : Type} (pool : PoolType) (key : A -> PublicKey).

Lemma resolve_None (xs : list A) :
  resolve pool key xs = None <->
  exists x, In x xs /\ ~ present pool (toBase58 (key x)).
Proof.
  induction xs as [| a xs IH]; cbn [resolve].
  - split; [discriminate | intros (x & [] & _)].
  - destruct (findReserve pool (toBase58 (key a))) as [r |] eqn:E.
    + destruct (resolve pool key xs) as [ps |].
      * split; [discriminate |]. intros (x & [-> | Hin] & Hx).
        -- apply findReserve_None in Hx. congruence.
        -- apply proj2 in IH. discriminate IH. eauto.
      * split; [| reflexivity]. intros _.
        destruct (proj1 IH eq_refl) as (x & Hin & Hx). exists x. split; auto.
        right. exact Hin.
    + split; [| reflexivity]. intros _. exists a. split; [left; reflexivity |].
      apply findReserve_None, E.
Qed.

Lemma resolve_Some (xs : list A) (ps : list (Reserve.t * A)) :
  resolve pool key xs = Some ps ->
  map snd ps = xs /\
  Forall (fun p => findReserve pool (toBase58 (key (snd p))) = Some (fst p)) ps.
Proof.
  revert ps. induction xs as [| a xs IH]; intros ps; cbn [resolve].
  - intros H. inversion H. split; [reflexivity | constructor].
  - destruct (findReserve pool (toBase58 (key a))) as [r |] eqn:E;
      [| discriminate].
    destruct (resolve pool key xs) as [qs |]; [| discriminate].
    intros H. inversion H; subst. destruct (IH qs eq_refl) as [Hm Hf].
    split; [cbn; f_equal; exact Hm |]. constructor; [exact E | exact Hf].
Qed.

Lemma resolve_total (xs : list A) :
  (forall x, In x xs -> present pool (toBase58 (key x))) ->
  exists ps, resolve pool key xs = Some ps.
Proof.
  intros H. destruct (resolve pool key xs) as [ps |] eqn:E; [eauto |].
  apply resolve_None in E. destruct E as (x & Hin & Hx).
  exfalso. apply Hx, H, Hin.
Qed.

End Resolve.

(** X1. The outcome of a call is decided by the unresolved reserves alone,
    deposits first: the deposit message when a non-zero deposit names an absent
    reserve, whatever the borrows; the borrow message when only a non-zero
    borrow does; a report in every other case. *)
Theorem outcome_by_resolution (ob : ObligationAccount) (pool : PoolType) :
  (danglingDeposit ob pool <->
   formatObligation ob pool = Throw depositMessage) /\
  (~ danglingDeposit ob pool /\ danglingBorrow ob pool <->
   formatObligation ob pool = Throw borrowMessage) /\
  (~ danglingDeposit ob pool /\ ~ danglingBorrow ob pool <->
   exists r, formatObligation ob pool = Ok r).
Proof.
  assert (Hd : danglingDeposit ob pool <->
               resolve pool depositReserve (nonZeroDeposits (info ob)) = None).
  { rewrite resolve_None. unfold danglingDeposit.
    split; intros (d & H1 & H2).
    - exists d. rewrite In_nonZeroDeposits. tauto.
    - exists d. rewrite In_nonZeroDeposits in H1. tauto. }
  assert (Hb : danglingBorrow ob pool <->
               resolve pool borrowReserve (nonZeroBorrows (info ob)) = None).
  { rewrite resolve_None. unfold danglingBorrow.
    split; intros (b & H1 & H2).
    - exists b. rewrite In_nonZeroBorrows. tauto.
    - exists b. rewrite In_nonZeroBorrows in H1. tauto. }
  rewrite formatObligation_pure, Hd, Hb.
  destruct (resolve pool depositReserve _) as [pd |];
    destruct (resolve pool borrowReserve _) as [pb |];
    (split; [| split]); split;
    try discriminate; try reflexivity; try tauto;
    try solve [intros [H1 H2]; congruence];
    try solve [intros [r Hr]; discriminate];
    try solve [intros _; split; discriminate];
    try solve [intros _; split; [discriminate | reflexivity]];
    try solve [intros _; eauto].
Qed.

(** ** Reports of well-formed inputs *)

Lemma Qpower10_pos (k : Z) : 0 < Qpower 10 k.
Proof. apply Qpower_0_lt. reflexivity. Qed.

Lemma inject_Z_nonneg (n : Z) : (0 <= n)%Z -> 0 <= inject_Z n.
Proof.
  intros H. unfold Qle. cbn. lia.
Qed.

Lemma shifted_nonneg (n k : Z) : (0 <= n)%Z -> nonneg (shiftedBy (ofBN n) k).
Proof.
  intros H. cbn. pose proof (Qpower10_pos k). pose proof (inject_Z_nonneg n H).
  nra.
Qed.

Lemma nonneg_max (x y : BigNumber) : nonneg x -> nonneg y -> nonneg (max x y).
Proof.
  destruct x as [| | a], y as [| | b]; cbn; try tauto.
  intros Ha Hb. destruct (Qle_bool b a); assumption.
Qed.

Lemma nonneg_finite (x : BigNumber) : nonneg x -> isFinite x = true.
Proof. destruct x; cbn; tauto. Qed.

Lemma nonneg_dividedBy (x y : BigNumber) :
  nonneg x -> nonneg y -> isZero y = false -> nonneg (dividedBy x y).
Proof.
  destruct x as [| | a], y as [| | b]; cbn; try tauto.
  intros Ha Hb Hz. rewrite Hz. cbn.
  apply Qzero_false in Hz. apply round_half_up_nonneg.
  apply Qle_shift_div_l; [| lra].
  destruct (Qlt_le_dec 0 b); [assumption | exfalso; apply Hz; lra].
Qed.

(** A ratio behind its zero guard is a finite non-negative number. *)
Lemma nonneg_guarded (x y : BigNumber) :
  nonneg x -> nonneg y ->
  nonneg (if isZero y then Fin 0 else dividedBy x y).
Proof.
  intros Hx Hy. destruct (isZero y) eqn:Hz; [cbn; lra |].
  apply nonneg_dividedBy; assumption.
Qed.

Lemma depositAmount_nonneg (p : Reserve.t * ObligationCollateral) :
  regularDepositPair p -> nonneg (depositAmount (fst p) (snd p)).
Proof.
  intros (Hn & _ & Hc & _). unfold depositAmount.
  apply nonneg_times; [apply shifted_nonneg, Hn | exact Hc].
Qed.

Lemma depositRecord_nonneg (p : Reserve.t * ObligationCollateral) :
  regularDepositPair p -> depositRecordNonneg (depositRecord (fst p) (snd p)).
Proof.
  intros H. pose proof (depositAmount_nonneg p H) as Ha.
  destruct H as (_ & Hp & _ & Hl & Ht & _).
  unfold depositRecordNonneg, depositRecord. cbn.
  repeat split; try assumption. apply nonneg_times; assumption.
Qed.

Lemma accruedAmount_nonneg (p : Reserve.t * ObligationLiquidity) :
  regularBorrowPair p -> nonneg (accruedAmount (fst p) (snd p)).
Proof.
  destruct p as [r b]. intros (Hn & Hi & _ & Hc & _). cbn [fst snd] in *.
  destruct (Reserve.cumulativeBorrowRate r) as [| | c] eqn:Ec;
    try contradiction.
  rewrite (accrued_finite r b c) by (lia || exact Ec). cbn in Hc |- *.
  apply round_half_up_nonneg.
  assert (Hraw : 0 <= rawAmount r b).
  { unfold rawAmount.
    pose proof (Qpower10_pos (- 18 - Reserve.decimals r)).
    pose proof (inject_Z_nonneg _ Hn). nra. }
  assert (Hidx : 0 < snapshotIndex b).
  { unfold snapshotIndex. pose proof (Qpower10_pos (- 18)).
    assert (0 < inject_Z (cumulativeBorrowRateWads b))
      by (unfold Qlt; cbn; lia).
    nra. }
  apply Qle_shift_div_l; [exact Hidx | nra].
Qed.

Lemma conservativePrice_nonneg (r : Reserve.t) :
  regularBorrowReserve r -> nonneg (conservativePrice r).
Proof.
  intros (Hp & _ & He & _). unfold conservativePrice.
  destruct (Reserve.emaPrice r) as [ema |]; [| exact Hp].
  apply nonneg_max; assumption.
Qed.

Lemma borrowWeight_nonneg (r : Reserve.t) :
  regularBorrowReserve r ->
  nonneg (ofOptional (Reserve.borrowWeight r)) /\
  borrowWeightOrMax r = ofOptional (Reserve.borrowWeight r).
Proof.
  intros (_ & _ & _ & Hw). unfold borrowWeightOrMax.
  destruct (Reserve.borrowWeight r); [split; [exact Hw | reflexivity] | contradiction].
Qed.

Lemma borrowRecord_nonneg (p : Reserve.t * ObligationLiquidity) :
  regularBorrowPair p -> borrowRecordNonneg (borrowRecord (fst p) (snd p)).
Proof.
  intros H. pose proof (accruedAmount_nonneg p H) as Ha.
  destruct H as (_ & _ & Hr).
  destruct (borrowWeight_nonneg _ Hr) as [Hw _].
  destruct Hr as (Hp & _).
  unfold borrowRecordNonneg, borrowRecord. cbn.
  repeat split; try assumption; repeat apply nonneg_times; assumption.
Qed.

(** Well-formed inputs resolve, into well-formed pairs. *)
Lemma regular_resolves (ob : ObligationAccount) (pool : PoolType) :
  regular ob pool ->
  exists pd pb,
    resolve pool depositReserve (nonZeroDeposits (info ob)) = Some pd /\
    resolve pool borrowReserve (nonZeroBorrows (info ob)) = Some pb /\
    Forall regularDepositPair pd /\ Forall regularBorrowPair pb.
Proof.
  intros [Hd Hb].
  destruct (resolve_total pool depositReserve (nonZeroDeposits (info ob)))
    as [pd Epd].
  { intros d Hin. apply In_nonZeroDeposits in Hin.
    destruct (Hd d (proj1 Hin) (proj2 Hin)) as (r & Hr & _).
    destruct (findReserve_Some _ _ _ Hr) as [Hin' <-].
    unfold present. apply in_map. exact Hin'. }
  destruct (resolve_total pool borrowReserve (nonZeroBorrows (info ob)))
    as [pb Epb].
  { intros b Hin. apply In_nonZeroBorrows in Hin.
    destruct (Hb b (proj1 Hin) (proj2 Hin)) as (r & Hr & _).
    destruct (findReserve_Some _ _ _ Hr) as [Hin' <-].
    unfold present. apply in_map. exact Hin'. }
  exists pd, pb. split; [exact Epd |]. split; [exact Epb |].
  destruct (resolve_Some _ _ _ _ Epd) as [Md Fd].
  destruct (resolve_Some _ _ _ _ Epb) as [Mb Fb].
  split.
  - rewrite Forall_forall in *. intros [r d] Hin.
    assert (Hd' : In d (nonZeroDeposits (info ob))).
    { rewrite <- Md. apply (in_map snd) in Hin. exact Hin. }
    apply In_nonZeroDeposits in Hd'.
    destruct (Hd d (proj1 Hd') (proj2 Hd')) as (r' & Hr' & Hreg).
    specialize (Fd _ Hin). cbn [fst snd] in Fd.
    assert (r' = r) by congruence. subst r'. exact Hreg.
  - rewrite Forall_forall in *. intros [r b] Hin.
    assert (Hb' : In b (nonZeroBorrows (info ob))).
    { rewrite <- Mb. apply (in_map snd) in Hin. exact Hin. }
    apply In_nonZeroBorrows in Hb'.
    destruct (Hb b (proj1 Hb') (proj2 Hb')) as (r' & Hr' & Hreg).
    specialize (Fb _ Hin). cbn [fst snd] in Fb.
    assert (r' = r) by congruence. subst r'. exact Hreg.
Qed.

Lemma depositRecords_nonneg (pd : list (Reserve.t * ObligationCollateral)) :
  Forall regularDepositPair pd -> Forall depositRecordNonneg (depositRecords pd).
Proof.
  intros H. unfold depositRecords. apply Forall_map.
  eapply Forall_impl; [| exact H]. intros p. apply depositRecord_nonneg.
Qed.

Lemma borrowRecords_nonneg (pb : list (Reserve.t * ObligationLiquidity)) :
  Forall regularBorrowPair pb -> Forall borrowRecordNonneg (borrowRecords pb).
Proof.
  intros H. unfold borrowRecords. apply Forall_map.
  eapply Forall_impl; [| exact H]. intros p. apply borrowRecord_nonneg.
Qed.

(** The accumulators after the deposits, and after the borrows. *)
Lemma depositSteps_nonneg (pd : list (Reserve.t * ObligationCollateral)) :
  Forall regularDepositPair pd ->
  forall s,
    nonneg (minPriceUserTotalSupply s) -> nonneg (minPriceBorrowLimit s) ->
    nonneg (minPriceUserTotalSupply (depositSteps pd s)) /\
    nonneg (minPriceBorrowLimit (depositSteps pd s)) /\
    maxPriceUserTotalWeightedBorrow (depositSteps pd s) =
      maxPriceUserTotalWeightedBorrow s.
Proof.
  unfold depositSteps. induction 1 as [| p pd Hp _ IH]; intros s H1 H2.
  - auto.
  - cbn [fold_left].
    pose proof (depositAmount_nonneg p Hp) as Ha.
    destruct Hp as (_ & _ & _ & Hl & _ & Hm).
    destruct (Reserve.minPrice (fst p)) as [m |] eqn:Em; [| contradiction].
    destruct (IH (depositStep (fst p) (snd p) s)) as (I1 & I2 & I3).
    + cbn. rewrite Em. cbn [ofOptional].
      apply nonneg_plus; [exact H1 | apply nonneg_times; assumption].
    + cbn. rewrite Em. cbn [ofOptional].
      apply nonneg_plus; [exact H2 |].
      repeat apply nonneg_times; assumption.
    + repeat split; assumption.
Qed.

Lemma borrowSteps_nonneg (pb : list (Reserve.t * ObligationLiquidity)) :
  Forall regularBorrowPair pb ->
  forall s,
    nonneg (maxPriceUserTotalWeightedBorrow s) ->
    nonneg (maxPriceUserTotalWeightedBorrow (borrowSteps pb s)) /\
    minPriceUserTotalSupply (borrowSteps pb s) = minPriceUserTotalSupply s /\
    minPriceBorrowLimit (borrowSteps pb s) = minPriceBorrowLimit s.
Proof.
  unfold borrowSteps. induction 1 as [| p pb Hp _ IH]; intros s H1.
  - auto.
  - cbn [fold_left].
    pose proof (accruedAmount_nonneg p Hp) as Ha.
    destruct Hp as (_ & _ & Hr).
    destruct (borrowWeight_nonneg _ Hr) as [Hw Ew].
    pose proof (conservativePrice_nonneg _ Hr) as Hc.
    destruct (IH (borrowStep (fst p) (snd p) s)) as (I1 & I2 & I3).
    + cbn. rewrite Ew.
      apply nonneg_plus; [exact H1 |]. repeat apply nonneg_times; assumption.
    + repeat split; try assumption.
Qed.

Lemma finite_minus (x y : BigNumber) :
  isFinite x = true -> isFinite y = true -> isFinite (minus x y) = true.
Proof. destruct x, y; cbn; congruence. Qed.

Lemma aggregate_nonneg (address poolAddress : string) (n : nat)
      (ds : list Deposit.t) (bs : list Borrow.t) (s : Acc) :
  Forall depositRecordNonneg ds -> Forall borrowRecordNonneg bs ->
  nonneg (minPriceUserTotalSupply s) -> nonneg (minPriceBorrowLimit s) ->
  nonneg (maxPriceUserTotalWeightedBorrow s) ->
  reportNonneg (aggregate address poolAddress n ds bs s).
Proof.
  intros Hds Hbs H1 H2 H3.
  assert (Z0 : nonneg (Fin 0)) by (cbn; lra).
  assert (Hsupply : nonneg (reduce (fun acc d => plus acc (Deposit.amountUsd d))
                                   ds (Fin 0))).
  { unfold reduce. apply fold_nonneg with (P := depositRecordNonneg); auto.
    intros a x Ha (_ & Hu & _). apply nonneg_plus; assumption. }
  assert (Hdebt : nonneg (reduce (fun acc b => plus acc (Borrow.amountUsd b))
                                 bs (Fin 0))).
  { unfold reduce. apply fold_nonneg with (P := borrowRecordNonneg); auto.
    intros a x Ha (_ & Hu & _). apply nonneg_plus; assumption. }
  assert (Hweighted :
    nonneg (reduce (fun acc b => plus acc (Borrow.weightedAmountUsd b))
                   bs (Fin 0))).
  { unfold reduce. apply fold_nonneg with (P := borrowRecordNonneg); auto.
    intros a x Ha (_ & _ & Hw). apply nonneg_plus; assumption. }
  assert (Hlimit :
    nonneg (reduce (fun acc d =>
                      plus (times (Deposit.amountUsd d)
                                  (Deposit.loanToValueRatio d)) acc)
                   ds (Fin 0))).
  { unfold reduce. apply fold_nonneg with (P := depositRecordNonneg); auto.
    intros a x Ha (_ & Hu & Hl & _).
    apply nonneg_plus; [apply nonneg_times |]; assumption. }
  assert (Hthreshold :
    nonneg (reduce (fun acc d =>
                      plus (times (Deposit.amountUsd d)
                                  (Deposit.liquidationThreshold d)) acc)
                   ds (Fin 0))).
  { unfold reduce. apply fold_nonneg with (P := depositRecordNonneg); auto.
    intros a x Ha (_ & Hu & _ & Ht).
    apply nonneg_plus; [apply nonneg_times |]; assumption. }
  unfold reportNonneg, aggregate. cbn.
  repeat match goal with |- _ /\ _ => split end;
    try assumption; try (apply nonneg_guarded; assumption).
  - apply finite_minus; apply nonneg_finite; assumption.
  - intros [Hz | Hz]; [rewrite Hz; exact Z0 |].
    destruct (isZero (minPriceBorrowLimit s)); [exact Z0 |].
    apply nonneg_dividedBy; assumption.
Qed.

(** X2. On well-formed inputs -- positive amounts and stored indices, resolved
    reserves with finite non-negative parameters, conservative price and
    borrow weight set -- a report is returned and it stays within finite
    non-negative numbers: every record, total, accumulator and guarded ratio;
    [netAccountValue] is finite, and [weightedBorrowUtilization] is covered
    unless [borrowLimit] is zero while [minPriceBorrowLimit] is not. *)
Theorem regular_report_nonneg (ob : ObligationAccount) (pool : PoolType) :
  regular ob pool ->
  exists r, formatObligation ob pool = Ok r /\ reportNonneg r.
Proof.
  intros H. destruct (regular_resolves ob pool H) as (pd & pb & Ed & Eb & Fd & Fb).
  rewrite formatObligation_pure, Ed, Eb. eexists. split; [reflexivity |].
  assert (Z0 : nonneg (Fin 0)) by (cbn; lra).
  destruct (depositSteps_nonneg pd Fd acc0 Z0 Z0) as (D1 & D2 & D3).
  destruct (borrowSteps_nonneg pb Fb (depositSteps pd acc0)) as (B1 & B2 & B3).
  { rewrite D3. exact Z0. }
  apply aggregate_nonneg.
  - apply depositRecords_nonneg, Fd.
  - apply borrowRecords_nonneg, Fb.
  - rewrite B2. exact D1.
  - rewrite B3. exact D2.
  - exact B1.
Qed.

(** ** The borrow-limit flag *)

Lemma round_half_up_reaches_one (x : Q) :
  1 <= round_half_up x <-> 1 - (1 # (2 * scale)) <= x.
Proof.
  split; intros H.
  - pose proof (round_half_up_error x) as E.
    apply Qabs_Qle_condition in E. lra.
  - assert (Hy : round_half_up (1 - (1 # (2 * scale))) == 1) by reflexivity.
    rewrite <- Hy. apply round_half_up_mono; [| exact H].
    unfold Qle. cbn. lia.
Qed.

(** X3. [isBorrowLimitReached] is false whenever [borrowLimit] is zero,
    whatever the debt; with a positive [borrowLimit] it is true exactly when
    [totalBorrowValue] is at least [borrowLimit] less 5e-21 of it, the half
    unit that the rounding of the ratio takes up: reaching the limit always
    raises the flag. *)
Theorem borrowLimitReached_threshold
        (ob : ObligationAccount) (pool : PoolType) (r : Report.t) :
  formatObligation ob pool = Ok r ->
  (isZero (Report.borrowLimit r) = true ->
   Report.isBorrowLimitReached r = false) /\
  (forall t l,
     Report.totalBorrowValue r = Fin t -> Report.borrowLimit r = Fin l ->
     0 < l ->
     (Report.isBorrowLimitReached r = true <->
      (1 - (1 # (2 * scale))) * l <= t) /\
     (l <= t -> Report.isBorrowLimitReached r = true)).
Proof.
  intros H. apply formatObligation_Ok_inv in H.
  destruct H as (ds & s1 & bs & s2 & _ & _ & ->).
  unfold aggregate.
  cbn [Report.borrowLimit Report.isBorrowLimitReached Report.totalBorrowValue].
  split.
  - intros ->. reflexivity.
  - intros t l -> -> Hl.
    assert (Hz : Qzero l = false) by (apply Qzero_false; lra).
    cbn [isZero dividedBy]. rewrite Hz. cbn [isGreaterThanOrEqualTo].
    assert (Hm : t / l * l == t) by (field; lra).
    assert (Hiff : Qle_bool 1 (round_half_up (t / l)) = true <->
                   (1 - (1 # (2 * scale))) * l <= t).
    { rewrite Qle_bool_iff, round_half_up_reaches_one. split; intros Hx.
      - nra.
      - apply Qle_shift_div_l; assumption. }
    split; [exact Hiff |].
    intros Hle. apply Hiff.
    assert (0 < 1 # (2 * scale)) by reflexivity. nra.
Qed.

(** ** Conservative and headline figures *)

Lemma fold_left_through_map {A B C} (f : C -> B -> C) (g : A -> B)
      (xs : list A) (c : C) :
  fold_left f (map g xs) c = fold_left (fun c x => f c (g x)) xs c.
Proof.
  revert c. induction xs as [| x xs IH]; intros c; [reflexivity | apply IH].
Qed.

Lemma depositSteps_supply (pd : list (Reserve.t * ObligationCollateral)) :
  forall s,
    minPriceUserTotalSupply (depositSteps pd s) =
    fold_left (fun a p =>
                 plus a (times (depositAmount (fst p) (snd p))
                               (ofOptional (Reserve.minPrice (fst p)))))
              pd (minPriceUserTotalSupply s).
Proof.
  unfold depositSteps. induction pd as [| p pd IH]; intros s; [reflexivity |].
  cbn [fold_left]. rewrite IH. reflexivity.
Qed.

Lemma depositSteps_limit (pd : list (Reserve.t * ObligationCollateral)) :
  forall s,
    minPriceBorrowLimit (depositSteps pd s) =
    fold_left (fun a p =>
                 plus a (times (times (depositAmount (fst p) (snd p))
                                      (ofOptional (Reserve.minPrice (fst p))))
                               (Reserve.loanToValueRatio (fst p))))
              pd (minPriceBorrowLimit s).
Proof.
  unfold depositSteps. induction pd as [| p pd IH]; intros s; [reflexivity |].
  cbn [fold_left]. rewrite IH. reflexivity.
Qed.

Lemma borrowSteps_weighted (pb : list (Reserve.t * ObligationLiquidity)) :
  forall s,
    maxPriceUserTotalWeightedBorrow (borrowSteps pb s) =
    fold_left (fun a p =>
                 plus a (times (times (accruedAmount (fst p) (snd p))
                                      (conservativePrice (fst p)))
                               (borrowWeightOrMax (fst p))))
              pb (maxPriceUserTotalWeightedBorrow s).
Proof.
  unfold borrowSteps. induction pb as [| p pb IH]; intros s; [reflexivity |].
  cbn [fold_left]. rewrite IH. reflexivity.
Qed.

Lemma borrowSteps_deposit_side (pb : list (Reserve.t * ObligationLiquidity)) :
  forall s,
    minPriceUserTotalSupply (borrowSteps pb s) = minPriceUserTotalSupply s /\
    minPriceBorrowLimit (borrowSteps pb s) = minPriceBorrowLimit s.
Proof.
  unfold borrowSteps. induction pb as [| p pb IH]; intros s; [auto |].
  cbn [fold_left]. destruct (IH (borrowStep (fst p) (snd p) s)) as [E1 E2].
  rewrite E1, E2. auto.
Qed.

Lemma depositSteps_borrow_side (pd : list (Reserve.t * ObligationCollateral)) :
  forall s,
    maxPriceUserTotalWeightedBorrow (depositSteps pd s) =
    maxPriceUserTotalWeightedBorrow s.
Proof.
  unfold depositSteps. induction pd as [| p pd IH]; intros s; [reflexivity |].
  cbn [fold_left]. rewrite IH. reflexivity.
Qed.

Lemma price_le_conservativePrice (r : Reserve.t) :
  regularBorrowReserve r ->
  finite_le (Reserve.price r) (conservativePrice r).
Proof.
  intros (Hp & _ & He & _). unfold conservativePrice.
  destruct (Reserve.price r) as [| | p]; try contradiction.
  destruct (Reserve.emaPrice r) as [[| | e] |]; cbn in *; try tauto; [| lra].
  destruct (Qle_bool p e) eqn:E; cbn; [| lra].
  apply Qle_bool_iff, E.
Qed.

(** The shape of a report that was returned, over the resolved pairs. *)
Lemma formatObligation_resolved (ob : ObligationAccount) (pool : PoolType)
      (r : Report.t) :
  formatObligation ob pool = Ok r ->
  exists pd pb,
    resolve pool depositReserve (nonZeroDeposits (info ob)) = Some pd /\
    resolve pool borrowReserve (nonZeroBorrows (info ob)) = Some pb /\
    r = aggregate (pubkey ob) (lendingMarket (info ob))
          (positionCount (info ob)) (depositRecords pd) (borrowRecords pb)
          (borrowSteps pb (depositSteps pd acc0)).
Proof.
  rewrite formatObligation_pure.
  destruct (resolve pool depositReserve _) as [pd |]; [| discriminate].
  destruct (resolve pool borrowReserve _) as [pb |]; [| discriminate].
  intros H. inversion H. exists pd, pb. auto.
Qed.

Lemma regular_report (ob : ObligationAccount) (pool : PoolType) (r : Report.t) :
  regular ob pool -> formatObligation ob pool = Ok r ->
  exists pd pb,
    Forall regularDepositPair pd /\ Forall regularBorrowPair pb /\
    resolve pool depositReserve (nonZeroDeposits (info ob)) = Some pd /\
    resolve pool borrowReserve (nonZeroBorrows (info ob)) = Some pb /\
    r = aggregate (pubkey ob) (lendingMarket (info ob))
          (positionCount (info ob)) (depositRecords pd) (borrowRecords pb)
          (borrowSteps pb (depositSteps pd acc0)).
Proof.
  intros Hreg H.
  destruct (regular_resolves ob pool Hreg) as (pd & pb & Ed & Eb & Fd & Fb).
  destruct (formatObligation_resolved ob pool r H) as (pd' & pb' & Ed' & Eb' & ->).
  assert (pd' = pd) by congruence. assert (pb' = pb) by congruence. subst.
  exists pd, pb. auto 6.
Qed.

Lemma weighted_term_le (a p c w : Q) :
  0 <= a -> 0 <= w -> p <= c -> w * (a * p) <= a * c * w.
Proof.
  intros Ha Hw Hpc.
  assert (H1 : a * p <= a * c) by nra.
  assert (H2 : w * (a * p) <= w * (a * c)) by nra.
  lra.
Qed.

Section ResolvedPairs.

Context {A : Type} (pool : PoolType) (key : A -> PublicKey).

Lemma resolve_In (xs : list A) (ps : list (Reserve.t * A)) (p : Reserve.t * A) :
  resolve pool key xs = Some ps -> In p ps ->
  In (snd p) xs /\ findReserve pool (toBase58 (key (snd p))) = Some (fst p).
Proof.
  intros E Hin. destruct (resolve_Some pool key xs ps E) as [Hm Hf].
  split.
  - rewrite <- Hm. apply in_map, Hin.
  - rewrite Forall_forall in Hf. apply Hf, Hin.
Qed.

End ResolvedPairs.

Lemma onDepositReserves_pairs (ob : ObligationAccount) (pool : PoolType)
      (P : Reserve.t -> Prop) (pd : list (Reserve.t * ObligationCollateral)) :
  onDepositReserves ob pool P ->
  resolve pool depositReserve (nonZeroDeposits (info ob)) = Some pd ->
  Forall (fun p => P (fst p)) pd.
Proof.
  intros H E. apply Forall_forall. intros p Hin.
  destruct (resolve_In pool depositReserve _ _ p E Hin) as [Hd Hf].
  apply In_nonZeroDeposits in Hd. exact (H _ _ (proj1 Hd) (proj2 Hd) Hf).
Qed.

Lemma onBorrowReserves_pairs (ob : ObligationAccount) (pool : PoolType)
      (P : Reserve.t -> Prop) (pb : list (Reserve.t * ObligationLiquidity)) :
  onBorrowReserves ob pool P ->
  resolve pool borrowReserve (nonZeroBorrows (info ob)) = Some pb ->
  Forall (fun p => P (fst p)) pb.
Proof.
  intros H E. apply Forall_forall. intros p Hin.
  destruct (resolve_In pool borrowReserve _ _ p E Hin) as [Hb Hf].
  apply In_nonZeroBorrows in Hb. exact (H _ _ (proj1 Hb) (proj2 Hb) Hf).
Qed.

Lemma Forall_and {A} (P Q : A -> Prop) (xs : list A) :
  Forall P xs -> Forall Q xs -> Forall (fun x => P x /\ Q x) xs.
Proof.
  intros HP HQ. rewrite Forall_forall in *. auto.
Qed.

Lemma plain_term_le (a p w : Q) :
  0 <= a -> 0 <= p -> 1 <= w -> a * p <= w * (a * p).
Proof.
  intros Ha Hp Hw. assert (H : 0 <= a * p) by nra. nra.
Qed.

Lemma floor_term_le (a m p : Q) : 0 <= a -> m <= p -> a * m <= a * p.
Proof. intros. nra. Qed.

Lemma floor_limit_term_le (a m p l : Q) :
  0 <= a -> 0 <= l -> m <= p -> a * m * l <= a * p * l.
Proof.
  intros Ha Hl Hmp. assert (H : a * m <= a * p) by nra. nra.
Qed.

(** The headline weighted borrow against the conservative accumulator. *)
Lemma weighted_le_conservative (address poolAddress : string) (n : nat)
      (ds : list Deposit.t) (pb : list (Reserve.t * ObligationLiquidity))
      (s : Acc) :
  Forall regularBorrowPair pb ->
  nonneg (maxPriceUserTotalWeightedBorrow s) ->
  let r := aggregate address poolAddress n ds (borrowRecords pb)
             (borrowSteps pb s) in
  finite_le (Report.weightedTotalBorrowValue r)
            (Report.maxPriceUserTotalWeightedBorrow r).
Proof.
  intros Fb Hs r. unfold r, aggregate.
  cbn [Report.weightedTotalBorrowValue Report.maxPriceUserTotalWeightedBorrow].
  unfold reduce, borrowRecords.
  rewrite fold_left_through_map, borrowSteps_weighted.
  apply fold_mono with (R := fun x y => x = y /\ regularBorrowPair x).
  - intros a1 a2 p ? Ha [<- Hp].
    pose proof (accruedAmount_nonneg p Hp) as Hacc.
    destruct Hp as (_ & _ & Hr).
    pose proof (price_le_conservativePrice _ Hr) as Hc.
    destruct (borrowWeight_nonneg _ Hr) as [Hw Ew].
    destruct Hr as (Hp & _).
    unfold borrowRecord. cbn [Borrow.weightedAmountUsd]. rewrite Ew.
    unfold multipliedBy.
    destruct a1, a2, (accruedAmount (fst p) (snd p)), (Reserve.price (fst p)),
      (conservativePrice (fst p)), (ofOptional (Reserve.borrowWeight (fst p)));
      cbn in *; try tauto.
    apply Qplus_le_compat; [assumption | apply weighted_term_le; assumption].
  - eapply Forall_diag; [| exact Fb]. auto.
  - exact Hs.
Qed.

(** X4. On well-formed inputs the conservative weighted borrow, taken at the
    larger of spot and smoothed price, is never below the headline
    [weightedTotalBorrowValue], taken at the spot price. *)
Theorem conservative_borrow_dominates
        (ob : ObligationAccount) (pool : PoolType) (r : Report.t) :
  regular ob pool -> formatObligation ob pool = Ok r ->
  finite_le (Report.weightedTotalBorrowValue r)
            (Report.maxPriceUserTotalWeightedBorrow r).
Proof.
  intros Hreg H.
  destruct (regular_report ob pool r Hreg H) as (pd & pb & Fd & Fb & _ & _ & ->).
  apply weighted_le_conservative; [exact Fb |].
  rewrite depositSteps_borrow_side. cbn. lra.
Qed.

(** X5. On well-formed inputs whose borrow weights are all at least 1, the
    weighted borrow total is at least the plain one. *)
Theorem weighted_borrow_at_least_plain
        (ob : ObligationAccount) (pool : PoolType) (r : Report.t) :
  regular ob pool -> onBorrowReserves ob pool weightAtLeastOne ->
  formatObligation ob pool = Ok r ->
  finite_le (Report.totalBorrowValue r) (Report.weightedTotalBorrowValue r).
Proof.
  intros Hreg Hw H.
  destruct (regular_report ob pool r Hreg H) as (pd & pb & Fd & Fb & _ & Eb & ->).
  pose proof (onBorrowReserves_pairs ob pool _ pb Hw Eb) as Fw.
  unfold aggregate.
  cbn [Report.weightedTotalBorrowValue Report.totalBorrowValue].
  unfold reduce, borrowRecords. rewrite !fold_left_through_map.
  apply fold_mono with
    (R := fun x y => x = y /\ regularBorrowPair x /\ weightAtLeastOne (fst x)).
  - intros a1 a2 p ? Ha (<- & Hp & H1).
    pose proof (accruedAmount_nonneg p Hp) as Hacc.
    destruct Hp as (_ & _ & Hp & _).
    unfold borrowRecord, weightAtLeastOne, multipliedBy in *.
    cbn [Borrow.weightedAmountUsd Borrow.amountUsd].
    destruct a1, a2, (accruedAmount (fst p) (snd p)), (Reserve.price (fst p)),
      (ofOptional (Reserve.borrowWeight (fst p)));
      cbn in *; try tauto.
    apply Qplus_le_compat; [assumption | apply plain_term_le; assumption].
  - eapply Forall_diag; [| exact (Forall_and _ _ _ Fb Fw)]. auto.
  - cbn. lra.
Qed.

(** The conservative deposit accumulators against the headline sums. *)
Lemma conservative_deposits_le (address poolAddress : string) (n : nat)
      (pd : list (Reserve.t * ObligationCollateral)) (bs : list Borrow.t)
      (pb : list (Reserve.t * ObligationLiquidity)) :
  Forall regularDepositPair pd ->
  Forall (fun p => minPriceAtMostPrice (fst p)) pd ->
  let r := aggregate address poolAddress n (depositRecords pd) bs
             (borrowSteps pb (depositSteps pd acc0)) in
  finite_le (Report.minPriceUserTotalSupply r) (Report.totalSupplyValue r) /\
  finite_le (Report.minPriceBorrowLimit r) (Report.borrowLimit r).
Proof.
  intros Fd Fm r. unfold r, aggregate.
  cbn [Report.minPriceUserTotalSupply Report.totalSupplyValue
       Report.minPriceBorrowLimit Report.borrowLimit].
  destruct (borrowSteps_deposit_side pb (depositSteps pd acc0)) as [-> ->].
  rewrite depositSteps_supply, depositSteps_limit.
  unfold reduce, depositRecords. rewrite !fold_left_through_map.
  pose proof (Forall_and _ _ _ Fd Fm) as F.
  split.
  - apply fold_mono with
      (R := fun x y => x = y /\ regularDepositPair x /\
                       minPriceAtMostPrice (fst x)).
    + intros a1 a2 p ? Ha (<- & Hp & Hm).
      pose proof (depositAmount_nonneg p Hp) as Hamt.
      unfold depositRecord, minPriceAtMostPrice in *. cbn [Deposit.amountUsd].
      destruct a1, a2, (depositAmount (fst p) (snd p)), (Reserve.price (fst p)),
        (ofOptional (Reserve.minPrice (fst p))); cbn in *; try tauto.
      apply Qplus_le_compat; [assumption | apply floor_term_le; assumption].
    + eapply Forall_diag; [| exact F]. auto.
    + cbn. lra.
  - apply fold_mono with
      (R := fun x y => x = y /\ regularDepositPair x /\
                       minPriceAtMostPrice (fst x)).
    + intros a1 a2 p ? Ha (<- & Hp & Hm).
      pose proof (depositAmount_nonneg p Hp) as Hamt.
      destruct Hp as (_ & _ & _ & Hl & _).
      unfold depositRecord, minPriceAtMostPrice in *.
      cbn [Deposit.amountUsd Deposit.loanToValueRatio].
      destruct a1, a2, (depositAmount (fst p) (snd p)), (Reserve.price (fst p)),
        (ofOptional (Reserve.minPrice (fst p))),
        (Reserve.loanToValueRatio (fst p)); cbn in *; try tauto.
      match goal with
      | |- _ + ?y <= ?z + _ =>
          assert (y <= z) by (apply floor_limit_term_le; assumption)
      end.
      lra.
    + eapply Forall_diag; [| exact F]. auto.
    + cbn. lra.
Qed.

(** X6. On well-formed inputs whose conservative prices do not exceed the spot
    prices, the conservative supply and borrow limit do not exceed
    [totalSupplyValue] and [borrowLimit]. *)
Theorem conservative_limit_below_nominal
        (ob : ObligationAccount) (pool : PoolType) (r : Report.t) :
  regular ob pool -> onDepositReserves ob pool minPriceAtMostPrice ->
  formatObligation ob pool = Ok r ->
  finite_le (Report.minPriceUserTotalSupply r) (Report.totalSupplyValue r) /\
  finite_le (Report.minPriceBorrowLimit r) (Report.borrowLimit r).
Proof.
  intros Hreg Hm H.
  destruct (regular_report ob pool r Hreg H) as (pd & pb & Fd & Fb & Ed & _ & ->).
  apply conservative_deposits_le; [exact Fd |].
  exact (onDepositReserves_pairs ob pool _ pd Hm Ed).
Qed.

(** Two ratios behind the same guard, the second taken on the conservative
    side: larger numerator, smaller divisor. *)
Lemma guarded_ratio_le (w m g l : BigNumber) :
  nonneg w -> finite_le w m -> nonneg g -> finite_le g l ->
  nonneg (if isZero g then Fin 0 else dividedBy w l) /\
  finite_le (if isZero g then Fin 0 else dividedBy w l)
            (if isZero g then Fin 0 else dividedBy m g).
Proof.
  destruct w as [| | w], m as [| | m], g as [| | g], l as [| | l];
    cbn [nonneg finite_le]; try tauto.
  intros Hw Hwm Hg Hgl. cbn [isZero].
  destruct (Qzero g) eqn:Zg; [cbn; lra |].
  pose proof (proj1 (Qzero_false g) Zg) as Ng.
  assert (Pg : 0 < g).
  { destruct (Qlt_le_dec 0 g); [assumption | exfalso; apply Ng; lra]. }
  assert (Zl : Qzero l = false) by (apply Qzero_false; lra).
  cbn [dividedBy]. rewrite Zg, Zl. cbn [nonneg finite_le].
  assert (H0 : 0 <= w / l) by (apply Qle_shift_div_l; lra).
  split; [apply round_half_up_nonneg, H0 |].
  apply round_half_up_mono; [exact H0 |].
  apply Qle_shift_div_r; [lra |].
  assert (Hq : 0 <= m / g) by (apply Qle_shift_div_l; lra).
  assert (Hm : m / g * g == m) by (field; lra).
  nra.
Qed.

(** X7. On well-formed inputs whose conservative prices do not exceed the spot
    prices, the guard on the conservative limit also protects the division by
    the nominal limit: [weightedBorrowUtilization] is a finite non-negative
    number, and it never exceeds [weightedConservativeBorrowUtilization]. *)
Theorem weighted_utilization_below_conservative
        (ob : ObligationAccount) (pool : PoolType) (r : Report.t) :
  regular ob pool -> onDepositReserves ob pool minPriceAtMostPrice ->
  formatObligation ob pool = Ok r ->
  nonneg (Report.weightedBorrowUtilization r) /\
  finite_le (Report.weightedBorrowUtilization r)
            (Report.weightedConservativeBorrowUtilization r).
Proof.
  intros Hreg Hm H.
  destruct (regular_report ob pool r Hreg H) as (pd & pb & Fd & Fb & Ed & _ & ->).
  assert (Z0 : nonneg (Fin 0)) by (cbn; lra).
  destruct (depositSteps_nonneg pd Fd acc0 Z0 Z0) as (D1 & D2 & D3).
  destruct (borrowSteps_nonneg pb Fb (depositSteps pd acc0)) as (B1 & B2 & B3).
  { rewrite D3. exact Z0. }
  pose proof (aggregate_nonneg (pubkey ob) (lendingMarket (info ob))
                (positionCount (info ob)) (depositRecords pd) (borrowRecords pb)
                (borrowSteps pb (depositSteps pd acc0))
                (depositRecords_nonneg pd Fd) (borrowRecords_nonneg pb Fb)) as N.
  rewrite B2, B3 in N. specialize (N D1 D2 B1).
  destruct N as (_ & _ & _ & _ & _ & _ & _ & _ & _ & _ & _ & _ & Nw & _ & Ng & _).
  pose proof (weighted_le_conservative (pubkey ob) (lendingMarket (info ob))
                (positionCount (info ob)) (depositRecords pd) pb
                (depositSteps pd acc0) Fb) as W.
  rewrite D3 in W. specialize (W Z0).
  destruct (conservative_deposits_le (pubkey ob) (lendingMarket (info ob))
              (positionCount (info ob)) pd (borrowRecords pb) pb Fd
              (onDepositReserves_pairs ob pool _ pd Hm Ed)) as [_ L].
  exact (guarded_ratio_le _ _ _ _ Nw W Ng L).
Qed.

(** ** Bounds of the factors *)

Lemma guarded_ratio_mono (a b d : BigNumber) :
  nonneg a -> finite_le a b -> nonneg d ->
  finite_le (if isZero d then Fin 0 else dividedBy a d)
            (if isZero d then Fin 0 else dividedBy b d).
Proof.
  intros Ha Hab Hd.
  destruct (guarded_ratio_le a b d d Ha Hab Hd) as [_ H]; [| exact H].
  destruct d; cbn in *; try tauto. lra.
Qed.

Lemma guarded_ratio_le_one (a d : BigNumber) :
  nonneg a -> finite_le a d ->
  finite_le (if isZero d then Fin 0 else dividedBy a d) (Fin 1).
Proof.
  destruct a as [| | a], d as [| | d]; cbn [nonneg finite_le]; try tauto.
  intros Ha Had. cbn [isZero]. destruct (Qzero d) eqn:Zd; [cbn; lra |].
  pose proof (proj1 (Qzero_false d) Zd) as Nd.
  cbn [dividedBy]. rewrite Zd.
  destruct (Qzero a); cbn [finite_le];
    (assert (H1 : round_half_up 1 == 1) by reflexivity;
     rewrite <- H1;
     apply round_half_up_mono;
     [apply Qle_shift_div_l; lra | apply Qle_shift_div_r; lra]).
Qed.

Lemma deposit_sums_ordered (address poolAddress : string) (n : nat)
      (pd : list (Reserve.t * ObligationCollateral)) (bs : list Borrow.t)
      (s : Acc) :
  Forall regularDepositPair pd ->
  Forall (fun p => ratiosOrdered (fst p)) pd ->
  let r := aggregate address poolAddress n (depositRecords pd) bs s in
  finite_le (Report.borrowLimit r) (Report.liquidationThreshold r) /\
  finite_le (Report.liquidationThreshold r) (Report.totalSupplyValue r).
Proof.
  intros Fd Fo r. unfold r, aggregate.
  cbn [Report.borrowLimit Report.liquidationThreshold Report.totalSupplyValue].
  unfold reduce, depositRecords. rewrite !fold_left_through_map.
  pose proof (Forall_and _ _ _ Fd Fo) as F.
  split.
  - apply fold_mono with
      (R := fun x y => x = y /\ regularDepositPair x /\ ratiosOrdered (fst x)).
    + intros a1 a2 p ? Ha (<- & Hp & Hlt & _).
      pose proof (depositAmount_nonneg p Hp) as Hamt.
      destruct Hp as (_ & Hpr & _).
      pose proof (nonneg_times _ _ Hamt Hpr) as Husd.
      unfold depositRecord.
      cbn [Deposit.amountUsd Deposit.loanToValueRatio Deposit.liquidationThreshold].
      destruct a1, a2,
        (times (depositAmount (fst p) (snd p)) (Reserve.price (fst p))),
        (Reserve.loanToValueRatio (fst p)),
        (Reserve.liquidationThreshold (fst p)); cbn in *; try tauto.
      nra.
    + eapply Forall_diag; [| exact F]. auto.
    + cbn. lra.
  - apply fold_mono with
      (R := fun x y => x = y /\ regularDepositPair x /\ ratiosOrdered (fst x)).
    + intros a1 a2 p ? Ha (<- & Hp & _ & Hone).
      pose proof (depositAmount_nonneg p Hp) as Hamt.
      destruct Hp as (_ & Hpr & _).
      pose proof (nonneg_times _ _ Hamt Hpr) as Husd.
      unfold depositRecord.
      cbn [Deposit.amountUsd Deposit.liquidationThreshold].
      destruct a1, a2,
        (times (depositAmount (fst p) (snd p)) (Reserve.price (fst p))),
        (Reserve.liquidationThreshold (fst p)); cbn in *; try tauto.
      nra.
    + eapply Forall_diag; [| exact F]. auto.
    + cbn. lra.
Qed.

(** X8. On well-formed inputs whose reserves have loan-to-value ratio at most
    liquidation threshold at most 1, the sums and the factors are ordered:
    [borrowLimit] <= [liquidationThreshold] <= [totalSupplyValue], and
    [borrowLimitFactor] <= [liquidationThresholdFactor] <= 1. *)
Theorem factors_ordered
        (ob : ObligationAccount) (pool : PoolType) (r : Report.t) :
  regular ob pool -> onDepositReserves ob pool ratiosOrdered ->
  formatObligation ob pool = Ok r ->
  finite_le (Report.liquidationThreshold r) (Report.totalSupplyValue r) /\
  finite_le (Report.borrowLimitFactor r) (Report.liquidationThresholdFactor r) /\
  finite_le (Report.liquidationThresholdFactor r) (Fin 1).
Proof.
  intros Hreg Ho H.
  destruct (regular_report ob pool r Hreg H) as (pd & pb & Fd & Fb & Ed & _ & ->).
  assert (Z0 : nonneg (Fin 0)) by (cbn; lra).
  destruct (depositSteps_nonneg pd Fd acc0 Z0 Z0) as (D1 & D2 & D3).
  destruct (borrowSteps_nonneg pb Fb (depositSteps pd acc0)) as (B1 & B2 & B3).
  { rewrite D3. exact Z0. }
  pose proof (aggregate_nonneg (pubkey ob) (lendingMarket (info ob))
                (positionCount (info ob)) (depositRecords pd) (borrowRecords pb)
                (borrowSteps pb (depositSteps pd acc0))
                (depositRecords_nonneg pd Fd) (borrowRecords_nonneg pb Fb)) as N.
  rewrite B2, B3 in N. specialize (N D1 D2 B1).
  destruct N as (_ & _ & Ns & _ & Nl & Nt & _).
  destruct (deposit_sums_ordered (pubkey ob) (lendingMarket (info ob))
              (positionCount (info ob)) pd (borrowRecords pb)
              (borrowSteps pb (depositSteps pd acc0)) Fd
              (onDepositReserves_pairs ob pool _ pd Ho Ed)) as [O1 O2].
  split; [exact O2 |]. split.
  - exact (guarded_ratio_mono _ _ _ Nl O1 Ns).
  - exact (guarded_ratio_le_one _ _ Nt O2).
Qed.

(** ** The pool as a lookup table *)

Lemma resolve_ext {A} (pool pool' : PoolType) (key : A -> PublicKey)
      (xs : list A) :
  (forall x, In x xs ->
             findReserve pool (toBase58 (key x)) =
             findReserve pool' (toBase58 (key x))) ->
  resolve pool key xs = resolve pool' key xs.
Proof.
  induction xs as [| a xs IH]; intros H; [reflexivity |].
  cbn [resolve]. rewrite (H a (or_introl eq_refl)).
  rewrite IH by (intros x Hx; apply H; right; exact Hx). reflexivity.
Qed.

(** X9. The pool matters only through what [find] answers for the reserve
    addresses of the non-zero positions: two pools that agree there give the
    same result, report or exception. *)
Theorem pool_frame (ob : ObligationAccount) (pool pool' : PoolType) :
  (forall d, In d (deposits (info ob)) -> depositedAmount d <> 0%Z ->
     findReserve pool (toBase58 (depositReserve d)) =
     findReserve pool' (toBase58 (depositReserve d))) ->
  (forall b, In b (borrows (info ob)) -> borrowedAmountWads b <> 0%Z ->
     findReserve pool (toBase58 (borrowReserve b)) =
     findReserve pool' (toBase58 (borrowReserve b))) ->
  formatObligation ob pool = formatObligation ob pool'.
Proof.
  intros Hd Hb. rewrite !formatObligation_pure.
  rewrite (resolve_ext pool pool' depositReserve).
  - rewrite (resolve_ext pool pool' borrowReserve); [reflexivity |].
    intros b Hin. apply In_nonZeroBorrows in Hin. apply Hb; tauto.
  - intros d Hin. apply In_nonZeroDeposits in Hin. apply Hd; tauto.
Qed.

Lemma findReserve_app (rs extra : list Reserve.t) (a : string) :
  findReserve (mkPool (rs ++ extra)) a =
  match findReserve (mkPool rs) a with
  | Some r => Some r
  | None => findReserve (mkPool extra) a
  end.
Proof.
  unfold findReserve. cbn [reserves].
  induction rs as [| r rs IH]; [reflexivity |].
  cbn [app find]. destruct (String.eqb (Reserve.address r) a); [reflexivity | exact IH].
Qed.

Lemma resolve_app_pool {A} (rs extra : list Reserve.t) (key : A -> PublicKey)
      (xs : list A) (ps : list (Reserve.t * A)) :
  resolve (mkPool rs) key xs = Some ps ->
  resolve (mkPool (rs ++ extra)) key xs = Some ps.
Proof.
  revert ps. induction xs as [| a xs IH]; intros ps; [auto |].
  cbn [resolve]. rewrite findReserve_app.
  destruct (findReserve (mkPool rs) (toBase58 (key a))) as [r |]; [| discriminate].
  destruct (resolve (mkPool rs) key xs) as [qs |]; [| discriminate].
  rewrite (IH qs eq_refl). auto.
Qed.

(** X10. A report does not change when reserves are appended to the pool,
    whether their addresses are new or already listed: [find] keeps answering
    the first reserve of each address. *)
Theorem appended_reserves_ignored
        (ob : ObligationAccount) (rs extra : list Reserve.t) (r : Report.t) :
  formatObligation ob (mkPool rs) = Ok r ->
  formatObligation ob (mkPool (rs ++ extra)) = Ok r.
Proof.
  rewrite !formatObligation_pure.
  destruct (resolve (mkPool rs) depositReserve _) as [pd |] eqn:Ed;
    [| discriminate].
  destruct (resolve (mkPool rs) borrowReserve _) as [pb |] eqn:Eb;
    [| discriminate].
  rewrite (resolve_app_pool rs extra _ _ _ Ed).
  rewrite (resolve_app_pool rs extra _ _ _ Eb). auto.
Qed.

(** ** Order of the positions *)

#[export] Instance bn_equiv_Equivalence : Equivalence bn_equiv.
Proof.
  split.
  - intros [| s | a]; cbn; auto. reflexivity.
  - intros [| s | a] [| t | b]; cbn; auto. intros H. symmetry. exact H.
  - intros [| s | a] [| t | b] [| u | c]; cbn; try tauto; try congruence.
    intros H1 H2. rewrite H1. exact H2.
Qed.

Lemma Qzero_comp (a b : Q) : a == b -> Qzero a = Qzero b.
Proof.
  intros E. destruct (Qzero a) eqn:Ha, (Qzero b) eqn:Hb; try reflexivity.
  - apply Qzero_true in Ha. apply Qzero_false in Hb. exfalso. apply Hb. lra.
  - apply Qzero_false in Ha. apply Qzero_true in Hb. exfalso. apply Ha. lra.
Qed.

Lemma Qneg_lt (a : Q) : Qneg a = true <-> a < 0.
Proof.
  unfold Qneg, Qlt. cbn. rewrite Z.ltb_lt. lia.
Qed.

Lemma Qneg_comp (a b : Q) : a == b -> Qneg a = Qneg b.
Proof.
  intros E. destruct (Qneg a) eqn:Ha, (Qneg b) eqn:Hb; try reflexivity.
  - apply Qneg_lt in Ha. assert (Hb' : b < 0) by lra.
    apply Qneg_lt in Hb'. congruence.
  - apply Qneg_lt in Hb. assert (Ha' : a < 0) by lra.
    apply Qneg_lt in Ha'. congruence.
Qed.

#[export] Instance plus_Proper : Proper (bn_equiv ==> bn_equiv ==> bn_equiv) plus.
Proof.
  intros [| s | a] [| s' | a'] E1 [| t | b] [| t' | b'] E2;
    cbn in *; try tauto; subst; try reflexivity.
  rewrite E1, E2. reflexivity.
Qed.

#[export] Instance negated_Proper : Proper (bn_equiv ==> bn_equiv) negated.
Proof.
  intros [| s | a] [| s' | a'] E; cbn in *; try tauto; subst; try reflexivity.
  rewrite E. reflexivity.
Qed.

#[export] Instance minus_Proper :
  Proper (bn_equiv ==> bn_equiv ==> bn_equiv) minus.
Proof.
  intros x x' Ex y y' Ey. unfold minus. rewrite Ex, Ey. reflexivity.
Qed.

#[export] Instance dividedBy_Proper :
  Proper (bn_equiv ==> bn_equiv ==> bn_equiv) dividedBy.
Proof.
  intros [| s | a] [| s' | a'] E1 [| t | b] [| t' | b'] E2;
    cbn in *; try tauto; subst; try reflexivity.
  - rewrite (Qneg_comp _ _ E2). reflexivity.
  - rewrite (Qzero_comp _ _ E2), (Qzero_comp _ _ E1), (Qneg_comp _ _ E1).
    destruct (Qzero b') eqn:Zb.
    + destruct (Qzero a'); reflexivity.
    + cbn. apply round_half_up_comp.
      assert (Nb' : ~ b' == 0) by (apply Qzero_false; exact Zb).
      assert (Nb : ~ b == 0) by (rewrite E2; exact Nb').
      rewrite E1. field_simplify_eq; [| tauto]. rewrite E2. ring.
Qed.

Lemma isZero_equiv (x y : BigNumber) : bn_equiv x y -> isZero x = isZero y.
Proof.
  destruct x, y; cbn; try tauto. apply Qzero_comp.
Qed.

Lemma ge_equiv (x x' y y' : BigNumber) :
  bn_equiv x x' -> bn_equiv y y' ->
  isGreaterThanOrEqualTo x y = isGreaterThanOrEqualTo x' y'.
Proof.
  destruct x as [| s | a], x' as [| s' | a'], y as [| t | b], y' as [| t' | b'];
    cbn; try tauto; intros E1 E2; subst; try reflexivity.
  destruct (Qle_bool b a) eqn:H1, (Qle_bool b' a') eqn:H2; try reflexivity.
  - apply Qle_bool_iff in H1. rewrite E1, E2 in H1.
    apply Qle_bool_iff in H1. congruence.
  - apply Qle_bool_iff in H2. rewrite <- E1, <- E2 in H2.
    apply Qle_bool_iff in H2. congruence.
Qed.

Lemma guarded_equiv (x x' y y' g g' : BigNumber) :
  bn_equiv x x' -> bn_equiv y y' -> bn_equiv g g' ->
  bn_equiv (if isZero g then Fin 0 else dividedBy x y)
           (if isZero g' then Fin 0 else dividedBy x' y').
Proof.
  intros Ex Ey Eg. rewrite (isZero_equiv _ _ Eg).
  destruct (isZero g'); [reflexivity |]. rewrite Ex, Ey. reflexivity.
Qed.

Lemma plus_comm_equiv (x y : BigNumber) : bn_equiv (plus x y) (plus y x).
Proof.
  destruct x as [| s | a], y as [| t | b]; cbn; try tauto.
  - destruct s, t; cbn; auto.
  - ring.
Qed.

Lemma plus_assoc_equiv (x y z : BigNumber) :
  bn_equiv (plus (plus x y) z) (plus x (plus y z)).
Proof.
  destruct x as [| s | a], y as [| t | b], z as [| u | c]; cbn; try tauto;
    try (destruct s, t; cbn; tauto); try (destruct t, u; cbn; tauto);
    try (destruct s, u; cbn; tauto); try (destruct s, t, u; cbn; tauto).
  ring.
Qed.

Lemma plus_swap_equiv (a x y : BigNumber) :
  bn_equiv (plus (plus a x) y) (plus (plus a y) x).
Proof.
  rewrite !plus_assoc_equiv. rewrite (plus_comm_equiv x y). reflexivity.
Qed.

Section FoldPermutation.

Context {A : Type} (f : BigNumber -> A -> BigNumber).
Hypothesis f_equiv : forall a b x, bn_equiv a b -> bn_equiv (f a x) (f b x).
Hypothesis f_swap : forall a x y, bn_equiv (f (f a x) y) (f (f a y) x).

Lemma fold_left_equiv (xs : list A) :
  forall a b, bn_equiv a b -> bn_equiv (fold_left f xs a) (fold_left f xs b).
Proof.
  induction xs as [| x xs IH]; intros a b E; [exact E |].
  cbn. apply IH, f_equiv, E.
Qed.

Lemma fold_left_permutation (xs ys : list A) :
  Permutation xs ys ->
  forall a b, bn_equiv a b -> bn_equiv (fold_left f xs a) (fold_left f ys b).
Proof.
  induction 1 as [| x xs ys _ IH | x y xs | xs ys zs _ IH1 _ IH2]; intros a b E.
  - exact E.
  - cbn. apply IH, f_equiv, E.
  - cbn. apply fold_left_equiv.
    rewrite (f_swap a y x). apply f_equiv, f_equiv, E.
  - rewrite (IH1 a b E). apply IH2. reflexivity.
Qed.

End FoldPermutation.

Lemma sum_permutation {A} (w : A -> BigNumber) (xs ys : list A) :
  Permutation xs ys ->
  forall a b, bn_equiv a b ->
    bn_equiv (fold_left (fun acc x => plus acc (w x)) xs a)
             (fold_left (fun acc x => plus acc (w x)) ys b).
Proof.
  apply fold_left_permutation.
  - intros a b x E. rewrite E. reflexivity.
  - intros a x y. apply plus_swap_equiv.
Qed.

Lemma sum_permutation_flipped {A} (w : A -> BigNumber) (xs ys : list A) :
  Permutation xs ys ->
  forall a b, bn_equiv a b ->
    bn_equiv (fold_left (fun acc x => plus (w x) acc) xs a)
             (fold_left (fun acc x => plus (w x) acc) ys b).
Proof.
  apply fold_left_permutation.
  - intros a b x E. rewrite E. reflexivity.
  - intros a x y.
    rewrite (plus_comm_equiv (w y)), (plus_comm_equiv (w x) a).
    rewrite plus_swap_equiv.
    rewrite (plus_comm_equiv _ (w x)), (plus_comm_equiv a (w y)). reflexivity.
Qed.

Lemma aggregate_equiv (address poolAddress : string) (n : nat)
      (ds ds' : list Deposit.t) (bs bs' : list Borrow.t) (s s' : Acc) :
  Permutation ds ds' -> Permutation bs bs' -> accEquiv s s' ->
  reportEquiv (aggregate address poolAddress n ds bs s)
              (aggregate address poolAddress n ds' bs' s').
Proof.
  intros Pd Pb (S1 & S2 & S3).
  assert (Z0 : bn_equiv (Fin 0) (Fin 0)) by reflexivity.
  pose proof (sum_permutation Deposit.amountUsd _ _ Pd _ _ Z0) as Hsupply.
  pose proof (sum_permutation Borrow.amountUsd _ _ Pb _ _ Z0) as Hdebt.
  pose proof (sum_permutation Borrow.weightedAmountUsd _ _ Pb _ _ Z0) as Hw.
  pose proof (sum_permutation_flipped
                (fun d => times (Deposit.amountUsd d) (Deposit.loanToValueRatio d))
                _ _ Pd _ _ Z0) as Hlimit.
  pose proof (sum_permutation_flipped
                (fun d => times (Deposit.amountUsd d)
                                (Deposit.liquidationThreshold d))
                _ _ Pd _ _ Z0) as Hthreshold.
  unfold reportEquiv, aggregate, reduce. cbn.
  repeat match goal with |- _ /\ _ => split end;
    try reflexivity; try assumption;
    try (apply guarded_equiv; assumption).
  - rewrite Hsupply, Hdebt. reflexivity.
  - apply ge_equiv; [| reflexivity]. apply guarded_equiv; assumption.
Qed.

Lemma filter_permutation {A} (p : A -> bool) (xs ys : list A) :
  Permutation xs ys -> Permutation (filter p xs) (filter p ys).
Proof.
  induction 1 as [| x xs ys _ IH | x y xs | xs ys zs _ IH1 _ IH2].
  - constructor.
  - cbn. destruct (p x); [constructor |]; exact IH.
  - cbn. destruct (p x), (p y); try reflexivity. constructor.
  - etransitivity; eassumption.
Qed.

Lemma resolve_permutation {A} (pool : PoolType) (key : A -> PublicKey)
      (xs ys : list A) :
  Permutation xs ys ->
  match resolve pool key xs, resolve pool key ys with
  | Some ps, Some qs => Permutation ps qs
  | None, None => True
  | _, _ => False
  end.
Proof.
  induction 1 as [| x xs ys _ IH | x y xs | xs ys zs _ IH1 _ IH2].
  - cbn. constructor.
  - cbn [resolve]. destruct (findReserve pool (toBase58 (key x))); [| exact I].
    destruct (resolve pool key xs), (resolve pool key ys); try tauto.
    constructor. exact IH.
  - cbn [resolve].
    destruct (findReserve pool (toBase58 (key x))),
      (findReserve pool (toBase58 (key y))), (resolve pool key xs);
      try exact I.
    constructor.
  - destruct (resolve pool key xs), (resolve pool key ys), (resolve pool key zs);
      try tauto.
    etransitivity; eassumption.
Qed.

Lemma depositSteps_equiv (pd pd' : list (Reserve.t * ObligationCollateral))
      (s s' : Acc) :
  Permutation pd pd' -> accEquiv s s' ->
  accEquiv (depositSteps pd s) (depositSteps pd' s').
Proof.
  intros P (S1 & S2 & S3). unfold accEquiv.
  rewrite !depositSteps_supply, !depositSteps_limit, !depositSteps_borrow_side.
  split; [| split; [| exact S3]].
  - exact (sum_permutation _ _ _ P _ _ S1).
  - exact (sum_permutation _ _ _ P _ _ S2).
Qed.

Lemma borrowSteps_equiv (pb pb' : list (Reserve.t * ObligationLiquidity))
      (s s' : Acc) :
  Permutation pb pb' -> accEquiv s s' ->
  accEquiv (borrowSteps pb s) (borrowSteps pb' s').
Proof.
  intros P (S1 & S2 & S3). unfold accEquiv.
  rewrite !borrowSteps_weighted.
  destruct (borrowSteps_deposit_side pb s) as [-> ->].
  destruct (borrowSteps_deposit_side pb' s') as [-> ->].
  split; [exact S1 | split; [exact S2 |]].
  exact (sum_permutation _ _ _ P _ _ S3).
Qed.

(** X11. The order of the positions does not matter.  Two obligations of one
    owner and market whose deposits, and whose borrows, are the same up to
    order end alike: with the same exception, or with reports that carry the
    same values in every field, their two lists being the same up to order. *)
Theorem position_order_irrelevant
        (ob ob' : ObligationAccount) (pool : PoolType) :
  pubkey ob = pubkey ob' ->
  lendingMarket (info ob) = lendingMarket (info ob') ->
  Permutation (deposits (info ob)) (deposits (info ob')) ->
  Permutation (borrows (info ob)) (borrows (info ob')) ->
  match formatObligation ob pool, formatObligation ob' pool with
  | Ok r, Ok r' => reportEquiv r r'
  | Throw e, Throw e' => e = e'
  | _, _ => False
  end.
Proof.
  intros Ek Em Pd Pb. rewrite !formatObligation_pure.
  assert (Pd' : Permutation (nonZeroDeposits (info ob)) (nonZeroDeposits (info ob')))
    by (apply filter_permutation, Pd).
  assert (Pb' : Permutation (nonZeroBorrows (info ob)) (nonZeroBorrows (info ob')))
    by (apply filter_permutation, Pb).
  assert (En : positionCount (info ob) = positionCount (info ob')).
  { unfold positionCount.
    rewrite (Permutation_length Pd'), (Permutation_length Pb'). reflexivity. }
  pose proof (resolve_permutation pool depositReserve _ _ Pd') as Rd.
  pose proof (resolve_permutation pool borrowReserve _ _ Pb') as Rb.
  destruct (resolve pool depositReserve (nonZeroDeposits (info ob))) as [pd |],
    (resolve pool depositReserve (nonZeroDeposits (info ob'))) as [pd' |];
    try contradiction; [| reflexivity].
  destruct (resolve pool borrowReserve (nonZeroBorrows (info ob))) as [pb |],
    (resolve pool borrowReserve (nonZeroBorrows (info ob'))) as [pb' |];
    try contradiction; [| reflexivity].
  rewrite Ek, Em, En. apply aggregate_equiv.
  - apply Permutation_map, Rd.
  - apply Permutation_map, Rb.
  - apply borrowSteps_equiv; [exact Rb |].
    apply depositSteps_equiv; [exact Rd |].
    repeat split; reflexivity.
Qed.

(** ** Debts *)

(** X12. On records with non-negative values, raising the [amountUsd] of one
    borrow, the deposits and the other borrows unchanged, lowers neither
    [totalBorrowValue], [borrowUtilization] nor [borrowOverSupply], and never
    clears [isBorrowLimitReached]. *)
Theorem debt_increase_monotone
        (address poolAddress : string) (n : nat) (ds : list Deposit.t)
        (pre post : list Borrow.t) (b b' : Borrow.t) (s s' : Acc) :
  Forall depositRegular ds ->
  Forall (fun x => nonneg (Borrow.amountUsd x)) (pre ++ b :: post) ->
  finite_le (Borrow.amountUsd b) (Borrow.amountUsd b') ->
  let r := aggregate address poolAddress n ds (pre ++ b :: post) s in
  let r' := aggregate address poolAddress n ds (pre ++ b' :: post) s' in
  finite_le (Report.totalBorrowValue r) (Report.totalBorrowValue r') /\
  finite_le (Report.borrowUtilization r) (Report.borrowUtilization r') /\
  finite_le (Report.borrowOverSupply r) (Report.borrowOverSupply r') /\
  (Report.isBorrowLimitReached r = true ->
   Report.isBorrowLimitReached r' = true).
Proof.
  intros Hds Hbs Hup r r'.
  assert (Z0 : nonneg (Fin 0)) by (cbn; lra).
  set (R := fun x y : Borrow.t =>
              nonneg (Borrow.amountUsd x) /\
              finite_le (Borrow.amountUsd x) (Borrow.amountUsd y)).
  assert (F : Forall2 R (pre ++ b :: post) (pre ++ b' :: post)).
  { apply Forall_app in Hbs. destruct Hbs as [Hpre Hrest].
    inversion Hrest as [| ? ? Hb Hpost]; subst.
    assert (Hdiag : forall x, nonneg (Borrow.amountUsd x) -> R x x).
    { intros x Hx. split; [exact Hx |]. unfold nonneg in Hx.
      destruct (Borrow.amountUsd x); cbn in *; try tauto. lra. }
    apply Forall2_app;
      [apply Forall_diag with (P := fun x => nonneg (Borrow.amountUsd x));
       assumption |].
    constructor;
      [unfold R; split; assumption |
       apply Forall_diag with (P := fun x => nonneg (Borrow.amountUsd x));
       assumption]. }
  assert (Hdebt : finite_le (Report.totalBorrowValue r)
                            (Report.totalBorrowValue r')).
  { unfold r, r', aggregate. cbn [Report.totalBorrowValue]. unfold reduce.
    apply fold_mono with (R := R); [| exact F | cbn; lra].
    intros a1 a2 x y Ha (_ & Hxy).
    destruct a1, a2, (Borrow.amountUsd x), (Borrow.amountUsd y);
      cbn in *; try tauto. lra. }
  assert (Ndebt : nonneg (Report.totalBorrowValue r)).
  { unfold r, aggregate. cbn [Report.totalBorrowValue]. unfold reduce.
    apply fold_nonneg with (P := fun x => nonneg (Borrow.amountUsd x)); auto.
    intros a x Ha Hx. apply nonneg_plus; assumption. }
  assert (Nlimit : nonneg (Report.borrowLimit r)).
  { unfold r, aggregate. cbn [Report.borrowLimit]. unfold reduce.
    apply fold_nonneg with (P := depositRegular); auto.
    intros a x Ha [Hu Hl]. apply nonneg_plus; [apply nonneg_times |]; assumption. }
  assert (Nsupply : nonneg (Report.totalSupplyValue r)).
  { unfold r, aggregate. cbn [Report.totalSupplyValue]. unfold reduce.
    apply fold_nonneg with (P := depositRegular); auto.
    intros a x Ha [Hu _]. apply nonneg_plus; assumption. }
  assert (Hu : finite_le (Report.borrowUtilization r)
                         (Report.borrowUtilization r')).
  { exact (guarded_ratio_mono _ _ _ Ndebt Hdebt Nlimit). }
  split; [exact Hdebt |]. split; [exact Hu |]. split.
  - exact (guarded_ratio_mono _ _ _ Ndebt Hdebt Nsupply).
  - unfold r, r', aggregate in *.
    cbn [Report.isBorrowLimitReached Report.borrowUtilization] in *.
    match type of Hu with
    | finite_le ?x ?y => destruct x as [| | u], y as [| | u']
    end; cbn in Hu |- *; try tauto.
    intros H1. apply Qle_bool_iff in H1. apply Qle_bool_iff. lra.
Qed.

(** ** The two sides of a report *)

(** X13. The two sides of a report are independent.  When two obligations with
    the same borrows both yield reports on one pool, the borrow records,
    [totalBorrowValue], [weightedTotalBorrowValue] and the conservative weighted
    borrow coincide whatever the deposits; when they have the same deposits,
    the deposit records, [totalSupplyValue], [borrowLimit],
    [liquidationThreshold], their two factors and the two conservative deposit
    accumulators coincide whatever the borrows. *)
Theorem report_sides_independent
        (ob ob' : ObligationAccount) (pool : PoolType) (r r' : Report.t) :
  formatObligation ob pool = Ok r -> formatObligation ob' pool = Ok r' ->
  (borrows (info ob) = borrows (info ob') ->
   Report.borrows r = Report.borrows r' /\
   Report.totalBorrowValue r = Report.totalBorrowValue r' /\
   Report.weightedTotalBorrowValue r = Report.weightedTotalBorrowValue r' /\
   Report.maxPriceUserTotalWeightedBorrow r =
     Report.maxPriceUserTotalWeightedBorrow r') /\
  (deposits (info ob) = deposits (info ob') ->
   Report.deposits r = Report.deposits r' /\
   Report.totalSupplyValue r = Report.totalSupplyValue r' /\
   Report.borrowLimit r = Report.borrowLimit r' /\
   Report.liquidationThreshold r = Report.liquidationThreshold r' /\
   Report.liquidationThresholdFactor r = Report.liquidationThresholdFactor r' /\
   Report.borrowLimitFactor r = Report.borrowLimitFactor r' /\
   Report.minPriceUserTotalSupply r = Report.minPriceUserTotalSupply r' /\
   Report.minPriceBorrowLimit r = Report.minPriceBorrowLimit r').
Proof.
  intros H H'.
  destruct (formatObligation_resolved ob pool r H) as (pd & pb & Ed & Eb & ->).
  destruct (formatObligation_resolved ob' pool r' H')
    as (pd' & pb' & Ed' & Eb' & ->).
  unfold aggregate. cbn.
  split.
  - intros E. unfold nonZeroBorrows in Eb, Eb'. rewrite E in Eb.
    assert (pb' = pb) by congruence. subst pb'.
    rewrite !borrowSteps_weighted, !depositSteps_borrow_side. auto.
  - intros E. unfold nonZeroDeposits in Ed, Ed'. rewrite E in Ed.
    assert (pd' = pd) by congruence. subst pd'.
    destruct (borrowSteps_deposit_side pb (depositSteps pd acc0)) as [-> ->].
    destruct (borrowSteps_deposit_side pb' (depositSteps pd acc0)) as [-> ->].
    repeat split; reflexivity.
Qed.

(** ** The amount of a transaction *)

Lemma Z_of_string_of_Z (z : Z) : Z_of_string (string_of_Z z) = Some z.
Proof.
  unfold Z_of_string, string_of_Z.
  rewrite DecimalString.NilZero.isi.
  - cbn. rewrite DecimalZ.of_to. reflexivity.
  - destruct z as [| p | p]; cbn; try discriminate.
    intros H. inversion H as [H1].
    pose proof (DecimalPos.Unsigned.to_uint_nonnil p). contradiction.
  - destruct z as [| p | p]; cbn; try discriminate.
    intros H. inversion H as [H1].
    pose proof (DecimalPos.Unsigned.to_uint_nonnil p). contradiction.
Qed.

(** X14. What [makeTransaction] submits.  With a wallet and a reserve at hand,
    a typed value equal to the maximum goes out as the sentinel [U64_MAX],
    whatever the decimals and even when the maximum is zero; any other finite
    typed value goes out as the decimal numeral of its base-unit amount
    rounded down, which never exceeds what was typed and falls short of it by
    less than one base unit. *)
Theorem makeTransaction_amount
        (key : string) (reserve : SelectedReserve.t)
        (maxValue newValue : BigNumber) :
  key <> EmptyString ->
  (isEqualTo newValue maxValue = true ->
   makeTransaction (Some key) (Some reserve) maxValue newValue =
     Some U64_MAX_text) /\
  (forall v,
     newValue = Fin v -> isEqualTo newValue maxValue = false ->
     exists z,
       makeTransaction (Some key) (Some reserve) maxValue newValue =
         Some (string_of_Z z) /\
       Z_of_string (string_of_Z z) = Some z /\
       inject_Z z <= v * Qpower 10 (SelectedReserve.decimals reserve) /\
       v * Qpower 10 (SelectedReserve.decimals reserve) < inject_Z z + 1 /\
       inject_Z z * Qpower 10 (- SelectedReserve.decimals reserve) <= v).
Proof.
  intros Hk. apply String.eqb_neq in Hk.
  unfold makeTransaction. rewrite Hk. split.
  - intros ->. reflexivity.
  - intros v -> ->. cbn [shiftedBy toFixed_0_ROUND_FLOOR].
    set (d := SelectedReserve.decimals reserve).
    exists (Qfloor (v * Qpower 10 d)).
    split; [reflexivity |]. split; [apply Z_of_string_of_Z |].
    pose proof (Qfloor_le (v * Qpower 10 d)) as Hlo.
    pose proof (Qlt_floor (v * Qpower 10 d)) as Hhi.
    split; [exact Hlo |]. split.
    + rewrite inject_Z_plus in Hhi. exact Hhi.
    + pose proof (Qpower10_pos d) as Hp.
      assert (Hinv : Qpower 10 (- d) == / Qpower 10 d) by apply Qpower_opp.
      rewrite Hinv.
      apply Qle_shift_div_r; [exact Hp | exact Hlo].
Qed.

(** ** Accrual and the current index *)

(** X15. For a non-negative stored debt with a positive stored index, the
    accrued amount does not fall when the reserve's current index rises, and
    once the current index is at least the stored one the accrued amount is at
    least the stored debt (to its twentieth decimal): interest never lowers
    a debt. *)
Theorem accrual_monotone
        (reserve reserve' : Reserve.t) (b : ObligationLiquidity) (c c' : Q) :
  (0 <= borrowedAmountWads b)%Z -> (0 < cumulativeBorrowRateWads b)%Z ->
  Reserve.decimals reserve' = Reserve.decimals reserve ->
  Reserve.cumulativeBorrowRate reserve = Fin c ->
  Reserve.cumulativeBorrowRate reserve' = Fin c' ->
  0 <= c -> c <= c' ->
  finite_le (accruedAmount reserve b) (accruedAmount reserve' b) /\
  (snapshotIndex b <= c ->
   finite_le (Fin (round_half_up (rawAmount reserve b)))
             (accruedAmount reserve b)).
Proof.
  intros Hn Hi Hd Hc Hc' H0 Hcc.
  rewrite (accrued_finite reserve b c) by (lia || exact Hc).
  rewrite (accrued_finite reserve' b c') by (lia || exact Hc').
  assert (Eraw : rawAmount reserve' b = rawAmount reserve b)
    by (unfold rawAmount; rewrite Hd; reflexivity).
  rewrite Eraw. cbn [finite_le].
  assert (Hraw : 0 <= rawAmount reserve b).
  { unfold rawAmount.
    pose proof (Qpower10_pos (- 18 - Reserve.decimals reserve)).
    pose proof (inject_Z_nonneg _ Hn). nra. }
  assert (Hidx : 0 < snapshotIndex b).
  { unfold snapshotIndex. pose proof (Qpower10_pos (- 18)).
    assert (0 < inject_Z (cumulativeBorrowRateWads b))
      by (unfold Qlt; cbn; lia).
    nra. }
  set (raw := rawAmount reserve b) in *. set (idx := snapshotIndex b) in *.
  assert (Hq : 0 <= raw * c / idx) by (apply Qle_shift_div_l; [exact Hidx | nra]).
  assert (Hm : raw * c / idx * idx == raw * c) by (field; lra).
  split.
  - apply round_half_up_mono; [exact Hq |].
    apply Qle_shift_div_l; [exact Hidx |]. nra.
  - intros Hge. apply round_half_up_mono; [exact Hraw |].
    apply Qle_shift_div_l; [exact Hidx |]. nra.
Qed.

(** ** The further statements at sample inputs *)

Open Scope string_scope.

Ltac closed_fact :=
  first [exact I | reflexivity | discriminate
        | vm_compute; first [exact I | reflexivity | discriminate]].

Ltac regular_sample :=
  split;
  [ intros d Hin _; cbn in Hin;
    repeat (destruct Hin as [<- | Hin]; [eexists; split; [reflexivity |] |]);
    [.. | destruct Hin];
    repeat split; closed_fact
  | intros b Hin _; cbn in Hin;
    repeat (destruct Hin as [<- | Hin]; [eexists; split; [reflexivity |] |]);
    [.. | destruct Hin];
    repeat split; closed_fact ].

Ltac on_reserves_sample :=
  intros x reserve Hin _ Hf; cbn in Hin;
  repeat (destruct Hin as [<- | Hin];
          [vm_compute in Hf; inversion Hf; subst; repeat split; closed_fact |]);
  destruct Hin.

Lemma regular_report_nonneg_witness :
  regular ob2 poolWeighted /\
  exists r, formatObligation ob2 poolWeighted = Ok r /\ reportNonneg r.
Proof.
  assert (H : regular ob2 poolWeighted) by regular_sample.
  split; [exact H | exact (regular_report_nonneg ob2 poolWeighted H)].
Defined.

Lemma borrowLimitReached_threshold_witness :
  exists r,
    formatObligation ob2 poolWeighted = Ok r /\
    (isZero (Report.borrowLimit r) = true ->
     Report.isBorrowLimitReached r = false) /\
    (forall t l,
       Report.totalBorrowValue r = Fin t -> Report.borrowLimit r = Fin l ->
       0 < l ->
       (Report.isBorrowLimitReached r = true <->
        (1 - (1 # (2 * scale))) * l <= t) /\
       (l <= t -> Report.isBorrowLimitReached r = true)).
Proof.
  eexists. split; [vm_compute; reflexivity |].
  apply (borrowLimitReached_threshold ob2 poolWeighted). vm_compute. reflexivity.
Defined.

Lemma conservative_borrow_dominates_witness :
  exists r,
    regular ob2 poolWeighted /\
    formatObligation ob2 poolWeighted = Ok r /\
    finite_le (Report.weightedTotalBorrowValue r)
              (Report.maxPriceUserTotalWeightedBorrow r).
Proof.
  assert (H : regular ob2 poolWeighted) by regular_sample.
  eexists. split; [exact H |]. split; [vm_compute; reflexivity |].
  apply (conservative_borrow_dominates ob2 poolWeighted _ H).
  vm_compute. reflexivity.
Defined.

Lemma weighted_borrow_at_least_plain_witness :
  exists r,
    regular ob2 poolWeighted /\
    onBorrowReserves ob2 poolWeighted weightAtLeastOne /\
    formatObligation ob2 poolWeighted = Ok r /\
    finite_le (Report.totalBorrowValue r) (Report.weightedTotalBorrowValue r).
Proof.
  assert (H : regular ob2 poolWeighted) by regular_sample.
  assert (W : onBorrowReserves ob2 poolWeighted weightAtLeastOne)
    by on_reserves_sample.
  eexists. split; [exact H |]. split; [exact W |].
  split; [vm_compute; reflexivity |].
  apply (weighted_borrow_at_least_plain ob2 poolWeighted _ H W).
  vm_compute. reflexivity.
Defined.

Lemma conservative_limit_below_nominal_witness :
  exists r,
    regular ob2 poolWeighted /\
    onDepositReserves ob2 poolWeighted minPriceAtMostPrice /\
    formatObligation ob2 poolWeighted = Ok r /\
    finite_le (Report.minPriceUserTotalSupply r) (Report.totalSupplyValue r) /\
    finite_le (Report.minPriceBorrowLimit r) (Report.borrowLimit r).
Proof.
  assert (H : regular ob2 poolWeighted) by regular_sample.
  assert (M : onDepositReserves ob2 poolWeighted minPriceAtMostPrice)
    by on_reserves_sample.
  eexists. split; [exact H |]. split; [exact M |].
  split; [vm_compute; reflexivity |].
  apply (conservative_limit_below_nominal ob2 poolWeighted _ H M).
  vm_compute. reflexivity.
Defined.

Lemma weighted_utilization_below_conservative_witness :
  exists r,
    regular ob2 poolWeighted /\
    onDepositReserves ob2 poolWeighted minPriceAtMostPrice /\
    formatObligation ob2 poolWeighted = Ok r /\
    nonneg (Report.weightedBorrowUtilization r) /\
    finite_le (Report.weightedBorrowUtilization r)
              (Report.weightedConservativeBorrowUtilization r).
Proof.
  assert (H : regular ob2 poolWeighted) by regular_sample.
  assert (M : onDepositReserves ob2 poolWeighted minPriceAtMostPrice)
    by on_reserves_sample.
  eexists. split; [exact H |]. split; [exact M |].
  split; [vm_compute; reflexivity |].
  apply (weighted_utilization_below_conservative ob2 poolWeighted _ H M).
  vm_compute. reflexivity.
Defined.

Lemma factors_ordered_witness :
  exists r,
    regular ob2 poolWeighted /\
    onDepositReserves ob2 poolWeighted ratiosOrdered /\
    formatObligation ob2 poolWeighted = Ok r /\
    finite_le (Report.liquidationThreshold r) (Report.totalSupplyValue r) /\
    finite_le (Report.borrowLimitFactor r) (Report.liquidationThresholdFactor r) /\
    finite_le (Report.liquidationThresholdFactor r) (Fin 1).
Proof.
  assert (H : regular ob2 poolWeighted) by regular_sample.
  assert (O : onDepositReserves ob2 poolWeighted ratiosOrdered)
    by on_reserves_sample.
  eexists. split; [exact H |]. split; [exact O |].
  split; [vm_compute; reflexivity |].
  apply (factors_ordered ob2 poolWeighted _ H O).
  vm_compute. reflexivity.
Defined.

Lemma pool_frame_witness :
  (forall d, In d (deposits (info ob2)) -> depositedAmount d <> 0%Z ->
     findReserve pool2 (toBase58 (depositReserve d)) =
     findReserve poolShadowed (toBase58 (depositReserve d))) /\
  (forall b, In b (borrows (info ob2)) -> borrowedAmountWads b <> 0%Z ->
     findReserve pool2 (toBase58 (borrowReserve b)) =
     findReserve poolShadowed (toBase58 (borrowReserve b))) /\
  formatObligation ob2 pool2 = formatObligation ob2 poolShadowed.
Proof.
  assert (Hd : forall d, In d (deposits (info ob2)) -> depositedAmount d <> 0%Z ->
     findReserve pool2 (toBase58 (depositReserve d)) =
     findReserve poolShadowed (toBase58 (depositReserve d))).
  { cbn. intros d [<- | []] _. reflexivity. }
  assert (Hb : forall b, In b (borrows (info ob2)) -> borrowedAmountWads b <> 0%Z ->
     findReserve pool2 (toBase58 (borrowReserve b)) =
     findReserve poolShadowed (toBase58 (borrowReserve b))).
  { cbn. intros b [<- | []] _. reflexivity. }
  split; [exact Hd |]. split; [exact Hb |].
  exact (pool_frame ob2 pool2 poolShadowed Hd Hb).
Defined.

Lemma appended_reserves_ignored_witness :
  exists r,
    formatObligation ob2 (mkPool [sol; usdc]) = Ok r /\
    formatObligation ob2 (mkPool ([sol; usdc] ++ [solWorthless])) = Ok r.
Proof.
  eexists. split; [vm_compute; reflexivity |].
  apply (appended_reserves_ignored ob2 [sol; usdc] [solWorthless]).
  vm_compute. reflexivity.
Defined.

Lemma position_order_irrelevant_witness :
  pubkey obTwo = pubkey obTwoSwapped /\
  lendingMarket (info obTwo) = lendingMarket (info obTwoSwapped) /\
  Permutation (deposits (info obTwo)) (deposits (info obTwoSwapped)) /\
  Permutation (borrows (info obTwo)) (borrows (info obTwoSwapped)) /\
  match formatObligation obTwo poolWeighted,
        formatObligation obTwoSwapped poolWeighted with
  | Ok r, Ok r' => reportEquiv r r'
  | Throw e, Throw e' => e = e'
  | _, _ => False
  end.
Proof.
  assert (Pd : Permutation (deposits (info obTwo)) (deposits (info obTwoSwapped)))
    by apply perm_swap.
  assert (Pb : Permutation (borrows (info obTwo)) (borrows (info obTwoSwapped)))
    by apply Permutation_refl.
  split; [reflexivity |]. split; [reflexivity |].
  split; [exact Pd |]. split; [exact Pb |].
  exact (position_order_irrelevant obTwo obTwoSwapped poolWeighted
           eq_refl eq_refl Pd Pb).
Defined.

Lemma debt_increase_monotone_witness :
  let r := aggregate "owner" "market" 2 [deposit200] ([] ++ borrow50 :: []) acc0 in
  let r' := aggregate "owner" "market" 2 [deposit200] ([] ++ borrow60 :: []) acc0 in
  Forall depositRegular [deposit200] /\
  Forall (fun x => nonneg (Borrow.amountUsd x)) ([] ++ borrow50 :: []) /\
  finite_le (Borrow.amountUsd borrow50) (Borrow.amountUsd borrow60) /\
  finite_le (Report.totalBorrowValue r) (Report.totalBorrowValue r') /\
  finite_le (Report.borrowUtilization r) (Report.borrowUtilization r') /\
  finite_le (Report.borrowOverSupply r) (Report.borrowOverSupply r') /\
  (Report.isBorrowLimitReached r = true ->
   Report.isBorrowLimitReached r' = true).
Proof.
  intros r r'.
  assert (Hds : Forall depositRegular [deposit200]).
  { repeat constructor; vm_compute; discriminate. }
  assert (Hbs : Forall (fun x => nonneg (Borrow.amountUsd x))
                       ([] ++ borrow50 :: [])).
  { repeat constructor. vm_compute. discriminate. }
  assert (Hup : finite_le (Borrow.amountUsd borrow50) (Borrow.amountUsd borrow60)).
  { vm_compute. discriminate. }
  split; [exact Hds |]. split; [exact Hbs |]. split; [exact Hup |].
  exact (debt_increase_monotone "owner" "market" 2 [deposit200] [] []
           borrow50 borrow60 acc0 acc0 Hds Hbs Hup).
Defined.

Lemma report_sides_independent_witness :
  exists r r',
    formatObligation ob1 poolWeighted = Ok r /\
    formatObligation ob2 poolWeighted = Ok r' /\
    deposits (info ob1) = deposits (info ob2) /\
    Report.deposits r = Report.deposits r' /\
    Report.totalSupplyValue r = Report.totalSupplyValue r' /\
    Report.borrowLimit r = Report.borrowLimit r'.
Proof.
  eexists. eexists. split; [vm_compute; reflexivity |].
  split; [vm_compute; reflexivity |]. split; [reflexivity |].
  destruct (proj2 (report_sides_independent ob1 ob2 poolWeighted _ _
                     ltac:(vm_compute; reflexivity)
                     ltac:(vm_compute; reflexivity)) eq_refl)
    as (H1 & H2 & H3 & _).
  split; [exact H1 |]. split; [exact H2 | exact H3].
Defined.

Lemma makeTransaction_amount_witness :
  "wallet" <> EmptyString /\
  isEqualTo (Fin (15 # 10)) (Fin 3) = false /\
  exists z,
    makeTransaction (Some "wallet") (Some usdcSelected) (Fin 3) (Fin (15 # 10)) =
      Some (string_of_Z z) /\
    Z_of_string (string_of_Z z) = Some z /\
    inject_Z z <= (15 # 10) * Qpower 10 (SelectedReserve.decimals usdcSelected) /\
    (15 # 10) * Qpower 10 (SelectedReserve.decimals usdcSelected) < inject_Z z + 1 /\
    inject_Z z * Qpower 10 (- SelectedReserve.decimals usdcSelected) <= 15 # 10.
Proof.
  assert (Hk : "wallet" <> EmptyString) by discriminate.
  split; [exact Hk |]. split; [reflexivity |].
  exact (proj2 (makeTransaction_amount "wallet" usdcSelected (Fin 3)
                  (Fin (15 # 10)) Hk) (15 # 10) eq_refl eq_refl).
Defined.

(** One and a half USDC typed against a maximum of three goes out as 1500000
    base units; three typed goes out as the sentinel. *)
Example makeTransaction_samples :
  makeTransaction (Some "wallet") (Some usdcSelected) (Fin 3) (Fin (15 # 10)) =
    Some "1500000" /\
  makeTransaction (Some "wallet") (Some usdcSelected) (Fin 3) (Fin 3) =
    Some "18446744073709551615" /\
  makeTransaction (Some "wallet") (Some usdcSelected) (Fin 3) NaN = Some "NaN" /\
  makeTransaction (Some "") (Some usdcSelected) (Fin 3) (Fin 1) = None.
Proof.
  repeat split; vm_compute; reflexivity.
Qed.

Lemma accrual_monotone_witness :
  (0 <= borrowedAmountWads dustBorrow)%Z /\
  (0 < cumulativeBorrowRateWads dustBorrow)%Z /\
  Reserve.decimals usdcDoubled = Reserve.decimals usdcWeighted /\
  Reserve.cumulativeBorrowRate usdcWeighted = Fin 1 /\
  Reserve.cumulativeBorrowRate usdcDoubled = Fin 2 /\
  0 <= 1 /\ 1 <= 2 /\ snapshotIndex dustBorrow <= 1 /\
  finite_le (accruedAmount usdcWeighted dustBorrow)
            (accruedAmount usdcDoubled dustBorrow) /\
  finite_le (Fin (round_half_up (rawAmount usdcWeighted dustBorrow)))
            (accruedAmount usdcWeighted dustBorrow).
Proof.
  assert (Hn : (0 <= borrowedAmountWads dustBorrow)%Z) by discriminate.
  assert (Hi : (0 < cumulativeBorrowRateWads dustBorrow)%Z) by reflexivity.
  assert (H0 : 0 <= 1) by discriminate.
  assert (H1 : 1 <= 2) by discriminate.
  assert (Hs : snapshotIndex dustBorrow <= 1) by (vm_compute; discriminate).
  destruct (accrual_monotone usdcWeighted usdcDoubled dustBorrow 1 2
              Hn Hi eq_refl eq_refl eq_refl H0 H1) as [M1 M2].
  pose proof (M2 Hs) as M3.
  repeat split; try assumption; reflexivity.
Defined.
